(** * pyaws: tag-list helpers and the console message helper

    A shallow embedding of [pyaws/tags/tag_utils.py] and
    [pyaws/utils/usermessage.py], and the properties their specification
    states about them.

    Python lists are mutable objects that the caller shares with the callee,
    so the tag-list helpers run in a state-and-exception monad over a heap of
    list objects.  Tag dicts are never written to by any helper and are
    therefore kept as values: finite maps from attribute names to strings. *)

From Stdlib Require Import ZArith Ascii String List Lia.
From stdpp Require Import base option list strings gmap pretty.

Local Open Scope string_scope.

(** ** The fragment of the Python runtime the two modules rely on *)

Module Py.

(** Exceptions, with the data [str(e)] is built from. *)
Inductive exn : Type :=
  | KeyError (key : string)
  | ValueError (msg : string)
  | TypeError (msg : string)
  | AttributeError (msg : string)
  | OverflowError (msg : string)
  | ClientError (code message : string)
  | BotoCoreError (msg : string).

(** Why a run of the model produced neither a value nor an exception. *)
Inductive stuck : Type :=
  | OutOfFuel
  | Dangling.

Inductive outcome (A : Type) : Type :=
  | Return (a : A)
  | Raise (e : exn)
  | Stuck (why : stuck).
Arguments Return {A} a.
Arguments Raise {A} e.
Arguments Stuck {A} why.

(** State and exceptions: the state survives a raised exception, as the
    side effects of a Python statement do. *)
Definition M (St A : Type) : Type := St -> outcome A * St.

Definition ret {St A} (a : A) : M St A := fun s => (Return a, s).

Definition raise {St A} (e : exn) : M St A := fun s => (Raise e, s).

Definition bind {St A B} (m : M St A) (k : A -> M St B) : M St B :=
  fun s =>
    match m s with
    | (Return a, s') => k a s'
    | (Raise e, s') => (Raise e, s')
    | (Stuck w, s') => (Stuck w, s')
    end.

(** [try: m except <select>: handler]; an exception [select] does not accept
    goes on propagating. *)
Definition try_except {St A} (m : M St A) (select : exn -> bool)
    (handler : exn -> M St A) : M St A :=
  fun s =>
    match m s with
    | (Raise e, s') => if select e then handler e s' else (Raise e, s')
    | r => r
    end.

Definition is_KeyError (e : exn) : bool :=
  match e with KeyError _ => true | _ => false end.

Definition is_ClientError (e : exn) : bool :=
  match e with ClientError _ _ => true | _ => false end.

(** Every exception of the model derives from [Exception]. *)
Definition is_Exception (e : exn) : bool := true.

Set Warnings "-register-all".

(** *** Values

    The scalar values the console helper is called with, and tuples, which
    its prefix test compares a string against. *)
Inductive pyval : Type :=
  | VNone
  | VBool (b : bool)
  | VInt (z : Z)
  | VStr (s : string)
  | VTuple (items : list pyval).

(** [a == b]: [bool] is a subclass of [int]; values of unrelated types are
    unequal. *)
Fixpoint py_eq (a b : pyval) {struct a} : bool :=
  match a, b with
  | VNone, VNone => true
  | VBool x, VBool y => Bool.eqb x y
  | VBool x, VInt z | VInt z, VBool x => Z.eqb (Z.b2z x) z
  | VInt x, VInt y => Z.eqb x y
  | VStr x, VStr y => String.eqb x y
  | VTuple xs, VTuple ys =>
      (fix items_eq (xs : list pyval) (ys : list pyval) : bool :=
         match xs, ys with
         | [], [] => true
         | x :: xs', y :: ys' => py_eq x y && items_eq xs' ys'
         | _, _ => false
         end) xs ys
  | _, _ => false
  end.

(** [x in t] for a tuple [t]. *)
Definition py_in (x : pyval) (t : list pyval) : bool := existsb (py_eq x) t.

(** Truth value of a string: non-empty. *)
Definition str_truthy (s : string) : bool :=
  match s with EmptyString => false | String _ _ => true end.

(** [needle in hay] for two strings: substring test. *)
Fixpoint str_contains (needle hay : string) : bool :=
  String.prefix needle hay
  || match hay with
     | EmptyString => false
     | String _ hay' => str_contains needle hay'
     end.

(** ASCII text: every character stands for a code point below 128. *)
Definition ascii_text (s : string) : bool :=
  forallb (fun c => (nat_of_ascii c <? 128)%nat) (list_ascii_of_string s).

(** [str.upper] on ASCII text: the letters [a] to [z] change. *)
Definition upper_char (c : ascii) : ascii :=
  let n := nat_of_ascii c in
  if (97 <=? n)%nat && (n <=? 122)%nat then ascii_of_nat (n - 32) else c.

Fixpoint str_upper (s : string) : string :=
  match s with
  | EmptyString => EmptyString
  | String c s' => String (upper_char c) (str_upper s')
  end.

(** [str.upper] on any text follows the Unicode tables of the runtime, which
    are not part of these sources.  They are left open, with what the code
    relies on: on ASCII text only the letters [a] to [z] change, and no text
    but the empty one becomes empty. *)
Record casing : Type := Casing {
  upper : string -> string;
  upper_ascii : forall s, ascii_text s = true -> upper s = str_upper s;
  upper_nonempty : forall s, upper s = EmptyString -> s = EmptyString
}.

(** The tables that change nothing outside ASCII. *)
Definition ascii_casing : casing.
Proof.
  refine {| upper := str_upper |}.
  - reflexivity.
  - intros [|c s]; [reflexivity|discriminate].
Defined.

Definition type_name (v : pyval) : string :=
  match v with
  | VNone => "NoneType"
  | VBool _ => "bool"
  | VInt _ => "int"
  | VStr _ => "str"
  | VTuple _ => "tuple"
  end.

(** [v.upper()]: only strings have the attribute. *)
Definition py_upper (U : casing) (v : pyval) : outcome string :=
  match v with
  | VStr s => Return (upper U s)
  | _ => Raise (AttributeError
                  ("'" ++ type_name v ++ "' object has no attribute 'upper'"))
  end.

(** [repr] of a string on the ASCII range: single quotes, unless the string
    holds a single quote and no double quote; the quote in use, backslash and
    control characters are escaped. *)
Definition dquote : ascii := ascii_of_nat 34.
Definition squote : ascii := ascii_of_nat 39.
Definition backslash : ascii := ascii_of_nat 92.

Definition hex_digit (n : nat) : ascii :=
  if (n <? 10)%nat then ascii_of_nat (48 + n) else ascii_of_nat (87 + n).

Definition repr_char (quote c : ascii) : string :=
  let n := nat_of_ascii c in
  if Ascii.eqb c backslash || Ascii.eqb c quote then String backslash (String c "")
  else if (n =? 10)%nat then String backslash "n"
  else if (n =? 13)%nat then String backslash "r"
  else if (n =? 9)%nat then String backslash "t"
  else if (n <? 32)%nat || (126 <? n)%nat then
    String backslash
      (String "x" (String (hex_digit (n / 16)) (String (hex_digit (n mod 16)) "")))
  else String c "".

Fixpoint has_char (c : ascii) (s : string) : bool :=
  match s with
  | EmptyString => false
  | String d s' => Ascii.eqb c d || has_char c s'
  end.

Fixpoint repr_body (quote : ascii) (s : string) : string :=
  match s with
  | EmptyString => EmptyString
  | String c s' => repr_char quote c ++ repr_body quote s'
  end.

Definition str_repr (s : string) : string :=
  let quote := if has_char squote s && negb (has_char dquote s)
               then dquote else squote in
  String quote (repr_body quote s ++ String quote "").

Definition join (sep : string) (parts : list string) : string :=
  match parts with
  | [] => ""
  | p :: ps => fold_left (fun acc q => acc ++ sep ++ q) ps p
  end.

Fixpoint py_repr (v : pyval) : string :=
  match v with
  | VNone => "None"
  | VBool true => "True"
  | VBool false => "False"
  | VInt z => pretty z
  | VStr s => str_repr s
  | VTuple [] => "()"
  | VTuple [x] => "(" ++ py_repr x ++ ",)"
  | VTuple xs => "(" ++ join ", " (map py_repr xs) ++ ")"
  end.

(** [str(v)] *)
Definition py_str (v : pyval) : string :=
  match v with
  | VStr s => s
  | _ => py_repr v
  end.

(** [int(s)] for a string, base 10: surrounding whitespace is dropped, one
    sign is allowed, and the digits may be grouped by single underscores. *)
Definition is_space (c : ascii) : bool :=
  let n := nat_of_ascii c in
  (n =? 32)%nat || ((9 <=? n)%nat && (n <=? 13)%nat).

Fixpoint lstrip (s : string) : string :=
  match s with
  | String c s' => if is_space c then lstrip s' else s
  | EmptyString => EmptyString
  end.

Definition digit_of (c : ascii) : option Z :=
  let n := nat_of_ascii c in
  if (48 <=? n)%nat && (n <=? 57)%nat then Some (Z.of_nat (n - 48)) else None.

(** [after_digit]: the previous character was a digit, so an underscore or
    the end of the literal (trailing whitespace only) may follow. *)
Fixpoint parse_digits (after_digit : bool) (acc : Z) (s : string) : option Z :=
  match s with
  | EmptyString => if after_digit then Some acc else None
  | String c s' =>
      match digit_of c with
      | Some d => parse_digits true (10 * acc + d) s'
      | None =>
          if Ascii.eqb c "_" then
            if after_digit then parse_digits false acc s' else None
          else if after_digit && is_space c then
            match lstrip s' with EmptyString => Some acc | _ => None end
          else None
      end
  end.

Definition parse_int (s : string) : option Z :=
  match lstrip s with
  | String "-" s' => option_map Z.opp (parse_digits false 0 s')
  | String "+" s' => parse_digits false 0 s'
  | s' => parse_digits false 0 s'
  end.

(** [int(v)] *)
Definition py_int (v : pyval) : outcome Z :=
  match v with
  | VInt z => Return z
  | VBool b => Return (Z.b2z b)
  | VStr s =>
      match parse_int s with
      | Some z => Return z
      | None => Raise (ValueError
                         ("invalid literal for int() with base 10: " ++ str_repr s))
      end
  | _ => Raise (TypeError
                  ("int() argument must be a string, a bytes-like object or a real number, not '"
                   ++ type_name v ++ "'"))
  end.

(** [s.expandtabs(tabsize)]: a tab advances to the next multiple of
    [tabsize] columns, the column count restarting after a line break; a
    [tabsize] that does not fit a C [int] is refused. *)
Definition int_max : Z := 2 ^ 31 - 1.

Fixpoint expand (tabsize : Z) (col : Z) (s : string) : string :=
  match s with
  | EmptyString => EmptyString
  | String c s' =>
      let n := nat_of_ascii c in
      if (n =? 9)%nat then
        if (0 <? tabsize)%Z then
          let pad := (tabsize - col mod tabsize)%Z in
          String.concat "" (replicate (Z.to_nat pad) " ") ++ expand tabsize (col + pad) s'
        else expand tabsize col s'
      else if (n =? 10)%nat || (n =? 13)%nat then String c (expand tabsize 0 s')
      else String c (expand tabsize (col + 1) s')
  end.

Definition expandtabs (tabsize : Z) (s : string) : outcome string :=
  if ((- int_max - 1 <=? tabsize) && (tabsize <=? int_max))%Z
  then Return (expand tabsize 0 s)
  else Raise (OverflowError "Python int too large to convert to C int").

(** The end of a call into code the model does not hold, such as the
    [__str__] of an object: a value or an exception. *)
Definition completed {A} (r : A + exn) : outcome A :=
  match r with
  | inl a => Return a
  | inr e => Raise e
  end.

(** [str(e)] for an exception. *)
Definition exn_str (e : exn) : string :=
  match e with
  | KeyError k => str_repr k
  | ValueError m | TypeError m | AttributeError m | OverflowError m
  | BotoCoreError m => m
  | ClientError code message =>
      "An error occurred (" ++ code ++ ") when calling the DeleteTags operation: "
      ++ message
  end.

End Py.

Import Py.

Declare Scope py_scope.
Delimit Scope py_scope with py.
Notation "x <- m ;; k" := (bind m (fun x => k))
  (at level 20, m at level 99, k at level 200, right associativity) : py_scope.
Notation "m ;; k" := (bind m (fun _ => k))
  (at level 100, k at level 200, right associativity) : py_scope.
Local Open Scope py_scope.

(** ** Mutable lists of tags

    A tag is a Python dict with string values; [t !! "Key"] is its key when
    it has one.  A list object lives in the heap at a location, and a
    variable holds the location: two variables bound to the same list see
    each other's updates. *)

Local Open Scope list_scope.

Abbreviation tag := (gmap string string).
Abbreviation loc := nat (only parsing).
Abbreviation heap := (list (list tag)) (only parsing).

Module PyList.

Definition new_tag (k v : string) : tag := <["Key" := k]> (<["Value" := v]> ∅).

(** [d[k]] *)
Definition getitem {St} (d : tag) (k : string) : M St string :=
  match d !! k with
  | Some v => ret v
  | None => raise (KeyError k)
  end.

Definition read (l : loc) : M heap (list tag) :=
  fun h =>
    match h !! l with
    | Some xs => (Return xs, h)
    | None => (Stuck Dangling, h)
    end.

Definition write (l : loc) (xs : list tag) : M heap unit :=
  fun h => (Return tt, <[l := xs]> h).

(** A new list object holding [xs]. *)
Definition alloc (xs : list tag) : M heap loc :=
  fun h => (Return (length h), h ++ [xs]).

(** [l.copy()] *)
Definition copy (l : loc) : M heap loc :=
  xs <- read l;; alloc xs.

(** [l.append(x)] *)
Definition append (l : loc) (x : tag) : M heap unit :=
  xs <- read l;; write l (xs ++ [x]).

(** The list without its first element equal to [x], if there is one. *)
Fixpoint remove_first (x : tag) (xs : list tag) : option (list tag) :=
  match xs with
  | [] => None
  | y :: ys =>
      if decide (y = x) then Some ys
      else option_map (cons y) (remove_first x ys)
  end.

(** [l.remove(x)] *)
Definition remove (l : loc) (x : tag) : M heap unit :=
  xs <- read l;;
  match remove_first x xs with
  | Some ys => write l ys
  | None => raise (ValueError "list.remove(x): x not in list")
  end.

(** [x in l] *)
Definition contains (l : loc) (x : tag) : M heap bool :=
  xs <- read l;; ret (bool_decide (x ∈ xs)).

(** Truth value of a list: non-empty. *)
Definition truthy (l : loc) : M heap bool :=
  xs <- read l;; ret (match xs with [] => false | _ => true end).

(** What a loop body asks for: the next iteration, with the loop's local
    variables, or [return r] out of the enclosing function. *)
Inductive flow (S R : Type) : Type :=
  | Next (s : S)
  | Returned (r : R).
Arguments Next {S R} s.
Arguments Returned {S R} r.

(** [for x in l: body], from index [i] on.  The iterator reads the live list
    object at each step, so a body that grows [l] is visited on the new
    elements as well; [fuel] bounds the number of steps. *)
Fixpoint for_in {S R} (fuel : nat) (l : loc) (i : nat)
    (body : tag -> S -> M heap (flow S R)) (s : S) : M heap (flow S R) :=
  match fuel with
  | O => fun h => (Stuck OutOfFuel, h)
  | Datatypes.S fuel' =>
      xs <- read l;;
      match xs !! i with
      | None => ret (Next s)
      | Some x =>
          r <- body x s;;
          match r with
          | Next s' => for_in fuel' l (Datatypes.S i) body s'
          | Returned v => ret (Returned v)
          end
      end
  end.

(** [for x in t: body] for an immutable sequence [t] (the [*args] tuple). *)
Fixpoint for_tuple {St A S R} (t : list A)
    (body : A -> S -> M St (flow S R)) (s : S) : M St (flow S R) :=
  match t with
  | [] => ret (Next s)
  | x :: t' =>
      r <- body x s;;
      match r with
      | Next s' => for_tuple t' body s'
      | Returned v => ret (Returned v)
      end
  end.

(** A loop that holds no [return] statement. *)
Definition no_return {St S} (m : M St (flow S Empty_set)) : M St S :=
  r <- m;;
  match r with
  | Next s => ret s
  | Returned v => match v with end
  end.

(** Insertion-ordered dicts local to a function, from string to string. *)
Abbreviation odict := (list (string * string)) (only parsing).

Fixpoint odict_set (k v : string) (d : odict) : odict :=
  match d with
  | [] => [(k, v)]
  | (k', v') :: d' =>
      if String.eqb k k' then (k', v) :: d' else (k', v') :: odict_set k v d'
  end.

(** [d.pop(k)] *)
Fixpoint odict_pop (k : string) (d : odict) : option (string * odict) :=
  match d with
  | [] => None
  | (k', v') :: d' =>
      if String.eqb k k' then Some (v', d')
      else option_map (fun r => (r.1, (k', v') :: r.2)) (odict_pop k d')
  end.

End PyList.

Import PyList.

(** ** The logging facility and standard output

    Both modules write to a logger they import from the package; it is kept
    as the list of records it was handed, next to the lines printed so far. *)

Module Logging.

Inductive level : Type := CRITICAL | WARNING | INFO | DEBUG.

Record world : Type := World {
  stdout : list string;
  records : list (level * pyval)
}.

Definition emit (lv : level) (msg : pyval) : M world unit :=
  fun w => (Return tt, World (stdout w) (records w ++ [(lv, msg)])).

Definition critical := emit CRITICAL.
Definition warning := emit WARNING.
Definition info := emit INFO.
Definition debug := emit DEBUG.

(** [print(text)] *)
Definition print (text : string) : M world unit :=
  fun w => (Return tt, World (stdout w ++ [text]) (records w)).

End Logging.

(** ** pyaws/tags/tag_utils.py *)

Module TagUtils.

Import Logging.

(** What the cloud provider's tagging call does with a request: it answers
    with an HTTP status code or raises. *)
Inductive api_reply : Type :=
  | HTTPStatus (code : Z)
  | ApiRaises (e : exn).

Abbreviation ec2_client := (list string -> list tag -> api_reply) (only parsing).

Definition client_delete_tags (client : ec2_client)
    (Resources : list string) (Tags : list tag) : M world Z :=
  match client Resources Tags with
  | HTTPStatus code => ret code
  | ApiRaises e => raise e
  end.

Definition delete_tags (client : ec2_client)
    (resourceIds : list string) (tags : list tag) : M world pyval :=
  try_except
    (r <- for_tuple resourceIds (fun resourceid (_ : unit) =>
            response <- client_delete_tags client [resourceid] tags;;
            if (response =? 200)%Z then
              info (VStr ("Existing Tags deleted from vol id " +:+ resourceid));;
              ret (Returned (VBool true))
            else
              warning (VStr ("Problem deleting existing tags from vol id "
                             +:+ resourceid));;
              ret (Returned (VBool false))) tt;;
     match r with
     | Returned v => ret v
     | Next _ => ret VNone
     end)
    is_ClientError
    (fun e =>
       match e with
       | ClientError code message =>
           critical (VStr ("delete_tags: Problem apply tags to ec2 instances (Code: "
                           +:+ code +:+ " Message: " +:+ message +:+ ")"));;
           ret (VBool false)
       | _ => raise e
       end).

(** [{x['Key']: x['Value'] for x in l}] *)
Definition dict_of_tags (fuel : nat) (l : loc) : M heap odict :=
  no_return (for_in fuel l 0 (fun x d =>
    k <- getitem x "Key";;
    v <- getitem x "Value";;
    ret (Next (odict_set k v d))) []).

Definition divide_tags (fuel : nat) (tag_list : loc) (args : list string)
    : M heap (loc * loc) :=
  matching <- alloc [];;
  tag_list_copy <- copy tag_list;;
  residual <- dict_of_tags fuel tag_list_copy;;
  tag_dict <- dict_of_tags fuel tag_list;;
  residual <- no_return (for_tuple args (fun key residual =>
    for_tuple tag_dict (fun '(k, v) residual =>
      try_except
        (if String.eqb key k then
           append matching (new_tag k v);;
           ret (Next residual)
         else
           match odict_pop key residual with
           | Some (_, residual') => ret (Next residual')
           | None => raise (KeyError key)
           end)
        is_KeyError
        (fun _ => ret (Next residual))) residual) residual);;
  rest <- alloc (map (fun '(k, v) => new_tag k v) residual);;
  ret (matching, rest).

Definition exclude_tags (fuel : nat) (tag_list : loc) (args : list string)
    : M heap loc :=
  clean <- copy tag_list;;
  no_return (for_in fuel tag_list 0 (fun tag _ =>
    for_tuple args (fun arg _ =>
      key <- getitem tag "Key";;
      if String.eqb arg key then
        remove clean tag;;
        ret (Next tt)
      else ret (Next tt)) tt) tt);;
  ret clean.

Definition include_tags (fuel : nat) (tag_list : loc) (args : list string)
    : M heap loc :=
  targets <- alloc [];;
  no_return (for_in fuel tag_list 0 (fun tag _ =>
    for_tuple args (fun arg _ =>
      key <- getitem tag "Key";;
      if String.eqb arg key then
        append targets tag;;
        ret (Next tt)
      else ret (Next tt)) tt) tt);;
  ret targets.

Definition filter_tags (fuel : nat) (tag_list : loc) (args : list string)
    : M heap loc :=
  clean <- copy tag_list;;
  no_return (for_in fuel tag_list 0 (fun tag _ =>
    for_tuple args (fun arg _ =>
      key <- getitem tag "Key";;
      if String.eqb arg key then
        remove clean tag;;
        ret (Next tt)
      else ret (Next tt)) tt) tt);;
  ret clean.

Definition remove_duplicates (fuel : nat) (list_ : loc) : M heap loc :=
  clean_list <- alloc [];;
  try_except
    (no_return (for_in fuel list_ 0 (fun dict key_list =>
       key <- getitem dict "Key";;
       if negb (existsb (String.eqb key) key_list) then
         append clean_list dict;;
         key <- getitem dict "Key";;
         ret (Next (key_list ++ [key]))
       else ret (Next key_list)) []);;
     ret clean_list)
    is_Exception
    (fun e =>
       if is_KeyError e then
         no_return (for_in fuel list_ 0 (fun item _ =>
           nonempty <- truthy clean_list;;
           if nonempty then
             present <- contains clean_list item;;
             if negb present then
               append clean_list item;;
               ret (Next tt)
             else ret (Next tt)
           else
             append clean_list item;;
             ret (Next tt)) tt);;
         ret clean_list
       else raise e).

Definition valid_tags (fuel : nat) (tag_list : loc) : M heap bool :=
  r <- for_in fuel tag_list 0 (fun tag (_ : unit) =>
         key <- getitem tag "Key";;
         if str_contains ":" key then ret (Returned false)
         else ret (Next tt)) tt;;
  match r with
  | Returned b => ret b
  | Next _ => ret true
  end.

Definition create_taglist (dict : list (string * string)) : M heap loc :=
  tags <- alloc [];;
  no_return (for_tuple dict (fun '(k, v) (_ : unit) =>
    let temp : tag := ∅ in
    let temp := <["Key" := k]> temp in
    let temp := <["Value" := v]> temp in
    append tags temp;;
    ret (Next tt)) tt);;
  ret tags.

(** [json.dumps(tag_list, indent=4, sort_keys=True)] belongs to the standard
    library: [json_dumps] stands for it, with the text it yields or the
    exception it raises. *)
Definition json_tags (json_dumps : list tag -> outcome string)
    (resource_list : list pyval) (tag_list : list tag) (mode : pyval)
    : M world bool :=
  let mode_text := if py_eq mode (VInt 0) then "DBUG" else "INFO" in
  try_except
    (no_return (for_tuple resource_list (fun resource (_ : unit) =>
       (if py_eq mode (VInt 0) then
          debug (VStr ("DBUGMODE enabled - Print tags found on resource "
                       +:+ py_str resource +:+ ":"))
        else
          info (VStr ("Tags found resource " +:+ py_str resource +:+ ":")));;
       text <- (fun w => (json_dumps tag_list, w));;
       print text;;
       ret (Next tt)) tt);;
     ret true)
    is_Exception
    (fun e =>
       critical (VStr ("json_tags: problem printing tag keys or values to cw logs: "
                       +:+ exn_str e));;
       ret false).

Definition print_tags (resource_list : list pyval) (tag_list : list tag)
    (mode : pyval) : M world Z :=
  let mode_text := if py_eq mode (VInt 0) then "DBUG" else "INFO" in
  try_except
    (no_return (for_tuple resource_list (fun resource (_ : unit) =>
       info (VStr ("Tags successfully applied to resource: "
                   +:+ py_str resource));;
       let ct := 0%Z in
       _ <- no_return (for_tuple tag_list (fun t ct =>
              key <- getitem t "Key";;
              value <- getitem t "Value";;
              info (VStr ("tag" +:+ py_str (VInt ct) +:+ ": " +:+ key
                          +:+ " : " +:+ value));;
              ret (Next (ct + 1)%Z)) ct);;
       ret (Next tt)) tt);;
     (if py_eq mode (VInt 0) then
        debug (VStr "DBUGMODE = True, No tags applied")
      else ret tt);;
     ret 0%Z)
    is_Exception
    (fun e =>
       critical (VStr ("print_tags: problem printing tag keys or values to cw logs: "
                       +:+ exn_str e));;
       ret 1%Z).

(** The list built, or the integer returned in its place. *)
Definition remove_restricted (fuel : nat) (list_ : loc) : M heap (loc + Z) :=
  clean_list <- alloc [];;
  try_except
    (no_return (for_in fuel list_ 0 (fun dict (_ : unit) =>
       key <- getitem dict "Key";;
       if negb (str_contains "aws" key) then
         append clean_list dict;;
         ret (Next tt)
       else ret (Next tt)) tt);;
     ret (inl clean_list))
    is_Exception
    (fun _ => ret (inr (-1)%Z)).

(** [key_list] is only read, element by element. *)
Definition select_tags (fuel : nat) (tag_list : loc) (key_list : list string)
    : M heap loc :=
  select_list <- alloc [];;
  no_return (for_in fuel tag_list 0 (fun tag (_ : unit) =>
    for_tuple key_list (fun key (_ : unit) =>
      k <- getitem tag "Key";;
      if String.eqb key k then
        append select_list tag;;
        ret (Next tt)
      else ret (Next tt)) tt) tt);;
  clean <- no_return (for_in fuel select_list 0 (fun x acc =>
             k <- getitem x "Key";;
             v <- getitem x "Value";;
             ret (Next (acc ++ [new_tag k v]))) []);;
  clean <- alloc clean;;
  ret clean.

End TagUtils.

(** ** pyaws/utils/usermessage.py *)

Module UserMessage.

Import Logging.

(** The escape sequences of [pyaws.colors.Colors] the helper uses; the module
    is not part of these sources, so they are left open. *)
Record colors : Type := Colors {
  YELLOW : string;
  RED : string;
  ORANGE : string;
  GREEN : string;
  DARKCYAN : string;
  BOLD : string;
  RESET : string
}.

Definition critical_status : list pyval :=
  [VStr "ERROR"; VStr "FAIL"; VStr "WTF"; VStr "STOP"; VStr "HALT";
   VStr "EXIT"; VStr "F*CK"].

Definition warning_status : list pyval :=
  [VStr "WARN"; VStr "WARNING"; VStr "CAUTION"; VStr "SLOW"].

Definition log_message (label : string) (msg : pyval) : M world bool :=
  (if py_in (VStr label) critical_status then critical msg
   else if py_in (VStr label) warning_status then warning msg
   else info msg);;
  ret true.

(** A call into the runtime that changes no state. *)
Definition lift {A} (r : outcome A) : M world A := fun w => (r, w).

Definition tab : string := String (ascii_of_nat 9) "".
Definition nl : string := String (ascii_of_nat 10) "".

Section Console.

Variable C : colors.

(** The case tables of the runtime. *)
Variable U : casing.

(** [str(message)]: the message may be any object, and [str] runs its
    [__str__]; [to_str] tells what that gives.  For the plain values of the
    model it is [py_str]. *)
Variable to_str : pyval -> string + exn.

Definition stdout_message (message prefix : pyval) (quiet multiline : bool)
    (indent severity : pyval) (logging : bool) : M world bool :=
  prefix <- lift (py_upper U prefix);;
  tabspaces <- lift (py_int indent);;
  if quiet then ret true
  else
    sev <- lift (py_upper U severity);;
    if str_truthy sev
       && negb (py_in (VStr prefix) [VTuple critical_status; VTuple warning_status])
    then
      print ("[stdout_message]: Prefix must be in either:" +:+ nl +:+ tab
             +:+ "critical status list:" +:+ tab
             +:+ py_str (VTuple critical_status) +:+ nl +:+ "or" +:+ nl +:+ tab
             +:+ "warning_status list:" +:+ tab
             +:+ py_str (VTuple warning_status));;
      ret false
    else
      try_except
        (header <-
           (in_critical <-
              (if py_in (VStr prefix) critical_status then ret true
               else sev <- lift (py_upper U severity);;
                    ret (String.eqb sev "CRITICAL"));;
            if in_critical then
              ret (YELLOW C +:+ tab +:+ "[ " +:+ RED C +:+ prefix
                   +:+ YELLOW C +:+ " ]" +:+ RESET C +:+ ": ")
            else
              sev <- lift (py_upper U severity);;
              if py_in (VStr sev) warning_status then
                ret (YELLOW C +:+ tab +:+ "[ " +:+ ORANGE C +:+ prefix
                     +:+ YELLOW C +:+ " ]" +:+ RESET C +:+ ": ")
              else if String.eqb prefix "OK" then
                ret (YELLOW C +:+ tab +:+ "[  " +:+ BOLD C +:+ GREEN C +:+ prefix
                     +:+ YELLOW C +:+ "  ]" +:+ RESET C +:+ ": ")
              else if py_in (VStr prefix) [VStr "DONE"; VStr "GOOD"] then
                ret (YELLOW C +:+ tab +:+ "[ " +:+ BOLD C +:+ GREEN C +:+ prefix
                     +:+ YELLOW C +:+ " ]" +:+ RESET C +:+ ": ")
              else
                ret (YELLOW C +:+ tab +:+ "[ " +:+ DARKCYAN C +:+ prefix
                     +:+ YELLOW C +:+ " ]" +:+ RESET C +:+ ": "));;
         (if multiline then
            expanded <- lift (expandtabs tabspaces header);;
            text <- lift (completed (to_str message));;
            print (expanded +:+ text)
          else
            expanded <- lift (expandtabs tabspaces header);;
            text <- lift (completed (to_str message));;
            print (nl +:+ expanded +:+ text +:+ nl));;
         (if logging then _ <- log_message prefix message;; ret tt
          else ret tt);;
         ret true)
        is_Exception
        (fun e =>
           print ("stdout_message: Problem sending msg to stdout: " +:+ exn_str e);;
           ret false).

End Console.

End UserMessage.

Import Logging TagUtils UserMessage.

(** * Specification vocabulary *)

(** A computation preserves a state invariant, whatever its outcome. *)
Definition preserves {St A} (I : St -> Prop) (m : M St A) : Prop :=
  forall w, I w -> I (m w).2.

(** [h'] is [h] with one more list object; every object of [h] is as it
    was. *)
Definition grown (h h' : heap) : Prop := exists c, h' = h ++ [c].

(** A call on the list at [l], holding [xs] in [h], ended in [run]: the
    caller's object still holds [xs], no other object of [h] changed, and a
    returned list is a new object. *)
Definition left_unchanged (h : heap) (l : loc) (xs : list tag)
    (run : outcome loc * heap) : Prop :=
  run.2 !! l = Some xs /\ grown h run.2 /\
  forall r, run.1 = Return r -> r = length h /\ r <> l.

Definition has_key (t : tag) : Prop := is_Some (t !! "Key").

(** The tag's key is one of [args]. *)
Definition key_in (args : list string) (t : tag) : bool :=
  match t !! "Key" with
  | Some k => existsb (String.eqb k) args
  | None => false
  end.

(** How often [u] occurs in [xs]. *)
Definition occurrences (u : tag) (xs : list tag) : nat :=
  length (filter (fun x => x = u) xs).

(** How often the key of [t] is among [args]. *)
Definition given_times (args : list string) (t : tag) : nat :=
  match t !! "Key" with
  | Some k => count_occ string_dec args k
  | None => 0
  end.

(** The tag's key holds a colon, by the test [valid_tags] applies. *)
Definition colon_in_key (t : tag) : bool :=
  match t !! "Key" with
  | Some k => str_contains ":" k
  | None => false
  end.

(** The logger method [log_message] hands a message to, by its label. *)
Definition level_for (label : string) : level :=
  if py_in (VStr label) critical_status then CRITICAL
  else if py_in (VStr label) warning_status then WARNING
  else INFO.

(** The line [stdout_message] prints when it refuses its arguments. *)
Definition usage_error : string :=
  "[stdout_message]: Prefix must be in either:" +:+ nl +:+ tab
  +:+ "critical status list:" +:+ tab
  +:+ "('ERROR', 'FAIL', 'WTF', 'STOP', 'HALT', 'EXIT', 'F*CK')" +:+ nl
  +:+ "or" +:+ nl +:+ tab +:+ "warning_status list:" +:+ tab
  +:+ "('WARN', 'WARNING', 'CAUTION', 'SLOW')".

(** The line it prints when the [try] block fails with [e]. *)
Definition problem_report (e : exn) : string :=
  "stdout_message: Problem sending msg to stdout: " +:+ exn_str e.

(** [tabsize] fits the C [int] that [expandtabs] converts it to. *)
Definition fits_int (z : Z) : Prop := (- int_max - 1 <= z <= int_max)%Z.

(** [str] of the plain values of the model. *)
Definition str_of_value (v : pyval) : string + exn := inl (py_str v).

(** The line [stdout_message] prints for a message, from the expanded
    header and the text of the message. *)
Definition message_line (multiline : bool) (expanded text : string) : string :=
  if multiline then expanded +:+ text else nl +:+ expanded +:+ text +:+ nl.

(** No tag before index [i] of [xs] carries the key of [t]. *)
Definition first_of_its_key (xs : list tag) (i : nat) (t : tag) : bool :=
  forallb (fun u => negb (bool_decide (u !! "Key" = t !! "Key"))) (take i xs).

(** The elements of [xs] that satisfy [p] at their index, counted from
    [i]. *)
Fixpoint keep_at (p : nat -> tag -> bool) (i : nat) (xs : list tag) : list tag :=
  match xs with
  | [] => []
  | t :: xs' => if p i t then t :: keep_at p (S i) xs' else keep_at p (S i) xs'
  end.

(** In the words of the specification: for each key, the first tag that
    carries it, in the order of the input. *)
Definition keep_first_per_key (xs : list tag) : list tag :=
  keep_at (first_of_its_key xs) 0 xs.

(** A run that ended in a value ends in [b] instead; any other end is
    kept. *)
Definition ending_in {St A B} (b : B) (r : outcome A * St) : outcome B * St :=
  match r.1 with
  | Return _ => (Return b, r.2)
  | Raise e => (Raise e, r.2)
  | Stuck why => (Stuck why, r.2)
  end.

(** A dict with a key and a value, as the provider's API wants a tag. *)
Definition is_tag (t : tag) : Prop :=
  is_Some (t !! "Key") /\ is_Some (t !! "Value").

(** The tag reduced to its key and its value. *)
Definition normalize (t : tag) : tag :=
  match t !! "Key", t !! "Value" with
  | Some k, Some v => new_tag k v
  | _, _ => t
  end.

(** Each tag as often as its key is among [args]. *)
Definition repeated_by_key (args : list string) (xs : list tag) : list tag :=
  flat_map (fun t => replicate (given_times args t) t) xs.

(** [acc] followed by the elements of [ys] it does not hold yet, each
    once. *)
Definition add_missing (ys acc : list tag) : list tag :=
  fold_left (fun acc t => if bool_decide (t ∈ acc) then acc else acc ++ [t])
    ys acc.

(** The tag's key holds the text [aws], by the test [remove_restricted]
    applies. *)
Definition aws_in_key (t : tag) : bool :=
  match t !! "Key" with
  | Some k => str_contains "aws" k
  | None => false
  end.

(** The tag of a dict entry. *)
Definition tag_of (e : string * string) : tag := new_tag e.1 e.2.

(** The dict [{x['Key']: x['Value'] for x in xs}]: one entry for each key,
    where the key occurs first, with the value that occurs last. *)
Definition entries (xs : list tag) : list (string * string) :=
  fold_left (fun d t =>
    match t !! "Key", t !! "Value" with
    | Some k, Some v => odict_set k v d
    | _, _ => d
    end) xs [].

(** The dict without the entry for [a]. *)
Definition odict_without (a : string) (d : list (string * string))
    : list (string * string) :=
  List.filter (fun e => negb (String.eqb a e.1)) d.

(** The dict holds an entry for a key other than [a]. *)
Definition has_other_key (a : string) (d : list (string * string)) : bool :=
  existsb (fun e => negb (String.eqb a e.1)) d.

(** For each of [args] in turn, the tag of the entry of [d] with that key,
    if there is one. *)
Definition matching_of (args : list string) (d : list (string * string))
    : list tag :=
  flat_map (fun a => map tag_of (List.filter (fun e => String.eqb a e.1) d)) args.

(** What is left of [d] when each of [args] that meets an entry for another
    key is taken out. *)
Definition residual_of (args : list string) (d : list (string * string))
    : list (string * string) :=
  fold_left (fun r a => if has_other_key a d then odict_without a r else r)
    args d.

(** The record [json_tags] writes before it prints the tags of a
    resource. *)
Definition json_header (mode resource : pyval) : level * pyval :=
  if py_eq mode (VInt 0) then
    (DEBUG, VStr ("DBUGMODE enabled - Print tags found on resource "
                  +:+ py_str resource +:+ ":"))
  else (INFO, VStr ("Tags found resource " +:+ py_str resource +:+ ":")).

(** The same colors with another escape sequence for orange. *)
Definition with_orange (C : colors) (orange : string) : colors :=
  Colors (YELLOW C) (RED C) orange (GREEN C) (DARKCYAN C) (BOLD C) (RESET C).

(** Sample data for the worked instances. *)
Definition tag_a1 : tag := new_tag "a" "1".
Definition tag_b2 : tag := new_tag "b" "2".
Definition tag_a3 : tag := new_tag "a" "3".
Definition tag_colon : tag := new_tag "aws:name" "x".
Definition dict_without_key : tag := <["Name" := "x"]> ∅.
Definition tag_with_owner : tag := <["Owner" := "ops"]> (new_tag "a" "1").
Definition sample_tags : list tag := [tag_a1; tag_b2; tag_a3; tag_a1].
Definition ansi : colors := Colors "<Y>" "<R>" "<O>" "<G>" "<C>" "<B>" "<0>".

Definition empty_world : world := World [] [].

(** * Properties *)

(** ** Invariants of computations *)

Section Preservation.

Context {St : Type} (I : St -> Prop).

Lemma preserves_ret {A} (a : A) : preserves I (ret a).
Proof. by intros w Hw. Qed.

Lemma preserves_raise {A} (e : exn) : preserves I (@raise St A e).
Proof. by intros w Hw. Qed.

Lemma preserves_bind {A B} (m : M St A) (k : A -> M St B) :
  preserves I m -> (forall a, preserves I (k a)) -> preserves I (bind m k).
Proof.
  intros Hm Hk w Hw. unfold bind. specialize (Hm w Hw).
  destruct (m w) as [[a|e|why] w']; simpl in *; [by apply Hk|done..].
Qed.

Lemma preserves_try {A} (m : M St A) (select : exn -> bool)
    (handler : exn -> M St A) :
  preserves I m -> (forall e, preserves I (handler e)) ->
  preserves I (try_except m select handler).
Proof.
  intros Hm Hh w Hw. unfold try_except. specialize (Hm w Hw).
  destruct (m w) as [[a|e|why] w']; simpl in *; try done.
  destruct (select e); [by apply Hh|done].
Qed.

Lemma preserves_getitem (d : tag) (k : string) :
  preserves I (@getitem St d k).
Proof. unfold getitem. destruct (d !! k); [apply preserves_ret|apply preserves_raise]. Qed.

Lemma preserves_for_tuple {A S R} (body : A -> S -> M St (flow S R))
    (t : list A) :
  (forall x s, preserves I (body x s)) ->
  forall s, preserves I (for_tuple t body s).
Proof.
  intros Hbody. induction t as [|x t IH]; intros s; [apply preserves_ret|].
  simpl. apply preserves_bind; [done|].
  intros [s'|v]; [apply IH|apply preserves_ret].
Qed.

Lemma preserves_no_return {S} (m : M St (flow S Empty_set)) :
  preserves I m -> preserves I (no_return m).
Proof.
  intros Hm. apply preserves_bind; [done|].
  intros [s|[]]. apply preserves_ret.
Qed.

End Preservation.

Lemma preserves_for_in {S R} (I : heap -> Prop)
    (body : tag -> S -> M heap (flow S R)) (l : loc) :
  (forall x s, preserves I (body x s)) ->
  forall fuel i s, preserves I (for_in fuel l i body s).
Proof.
  intros Hbody. induction fuel as [|fuel IH]; intros i s; [by intros h Hh|].
  simpl. apply preserves_bind.
  { intros h Hh. unfold read. by destruct (h !! l). }
  intros xs. destruct (xs !! i) as [x|]; [|apply preserves_ret].
  apply preserves_bind; [done|].
  intros [s'|v]; [apply IH|apply preserves_ret].
Qed.

(** While the body keeps the list at [l] equal to [xs], iterating over the
    live object is iterating over [xs], and one step more than [length xs]
    is enough fuel. *)
Lemma for_in_snapshot {S R} (I : heap -> Prop)
    (body : tag -> S -> M heap (flow S R)) (l : loc) (xs : list tag) :
  (forall h, I h -> h !! l = Some xs) ->
  (forall x s, preserves I (body x s)) ->
  forall fuel i s h, I h -> length xs - i < fuel ->
    for_in fuel l i body s h = for_tuple (drop i xs) body s h.
Proof.
  intros Hl Hbody. induction fuel as [|fuel IH]; intros i s h Hh Hfuel; [lia|].
  simpl. unfold bind at 1. unfold read. rewrite (Hl h Hh).
  destruct (xs !! i) as [x|] eqn:Hx.
  - rewrite (drop_S _ _ _ Hx). simpl. unfold bind.
    specialize (Hbody x s h Hh).
    destruct (body x s h) as [[[s'|v]|e|why] h']; simpl in *; try done.
    apply IH; [done|]. apply lookup_lt_Some in Hx. lia.
  - rewrite drop_ge; [done|]. by apply lookup_ge_None.
Qed.

Lemma for_tuple_cons {St A S R} (x : A) (t : list A)
    (body : A -> S -> M St (flow S R)) (s : S) :
  for_tuple (x :: t) body s =
  (r <- body x s;;
   match r with
   | Next s' => for_tuple t body s'
   | Returned v => ret (Returned v)
   end).
Proof. reflexivity. Qed.

(** ** The list a helper builds is a new object *)

Section Fresh.

Variable h : heap.

Lemma read_fresh (c : list tag) : read (length h) (h ++ [c]) = (Return c, h ++ [c]).
Proof. unfold read. by rewrite list_lookup_middle. Qed.

Lemma write_fresh (c c' : list tag) :
  write (length h) c' (h ++ [c]) = (Return tt, h ++ [c']).
Proof.
  unfold write. f_equal. rewrite insert_app_r_alt; [|done].
  by rewrite Nat.sub_diag.
Qed.

Lemma append_fresh (c : list tag) (x : tag) :
  append (length h) x (h ++ [c]) = (Return tt, h ++ [c ++ [x]]).
Proof. unfold append, bind. by rewrite read_fresh, write_fresh. Qed.

Lemma remove_fresh (c : list tag) (x : tag) :
  remove (length h) x (h ++ [c]) =
  match remove_first x c with
  | Some c' => (Return tt, h ++ [c'])
  | None => (Raise (ValueError "list.remove(x): x not in list"), h ++ [c])
  end.
Proof.
  unfold remove, bind. rewrite read_fresh.
  destruct (remove_first x c); [apply write_fresh|done].
Qed.

Lemma contains_fresh (c : list tag) (x : tag) :
  contains (length h) x (h ++ [c]) = (Return (bool_decide (x ∈ c)), h ++ [c]).
Proof. unfold contains, bind. by rewrite read_fresh. Qed.

Lemma truthy_fresh (c : list tag) :
  truthy (length h) (h ++ [c]) =
  (Return (match c with [] => false | _ => true end), h ++ [c]).
Proof. unfold truthy, bind. by rewrite read_fresh. Qed.

Lemma grown_lookup (h' : heap) (l : loc) (xs : list tag) :
  h !! l = Some xs -> grown h h' -> h' !! l = Some xs.
Proof. intros Hl [c ->]. by apply lookup_app_l_Some. Qed.

Lemma preserves_append (x : tag) : preserves (grown h) (append (length h) x).
Proof. intros ? [c ->]. rewrite append_fresh. by eexists. Qed.

Lemma preserves_remove (x : tag) : preserves (grown h) (remove (length h) x).
Proof.
  intros ? [c ->]. rewrite remove_fresh.
  destruct (remove_first x c); by eexists.
Qed.

Lemma preserves_contains (x : tag) : preserves (grown h) (contains (length h) x).
Proof. intros ? [c ->]. rewrite contains_fresh. by eexists. Qed.

Lemma preserves_truthy : preserves (grown h) (truthy (length h)).
Proof. intros ? [c ->]. rewrite truthy_fresh. by eexists. Qed.

End Fresh.

Create HintDb frame discriminated.
#[local] Hint Resolve preserves_ret preserves_raise preserves_getitem
  preserves_append preserves_remove preserves_contains preserves_truthy : frame.
#[local] Hint Extern 2 (preserves _ (bind _ _)) =>
  apply preserves_bind; [|intros ?] : frame.
#[local] Hint Extern 2 (preserves _ (no_return _)) =>
  apply preserves_no_return : frame.
#[local] Hint Extern 2 (preserves _ (for_tuple _ _ _)) =>
  apply preserves_for_tuple; intros ? ? : frame.
#[local] Hint Extern 2 (preserves _ (for_in _ _ _ _ _)) =>
  apply preserves_for_in; intros ? ? : frame.
#[local] Hint Extern 2 (preserves _ (try_except _ _ _)) =>
  apply preserves_try; [|intros ?] : frame.
#[local] Hint Extern 3 (preserves _ (if ?b then _ else _)) =>
  destruct b : frame.

Ltac frame := eauto 20 with frame.

(** The state after running [m] from [w] satisfies [I], because [m]
    preserves [I]. *)
Ltac frame_run :=
  cbv beta;
  lazymatch goal with
  | |- ?I (?m ?w).2 =>
      let Hp := fresh "Hp" in
      assert (preserves I m) as Hp by frame; apply Hp
  end.

(** ** Frame: the helpers write to the list they allocate only *)

Lemma copy_lookup (h : heap) (l : loc) (xs : list tag) :
  h !! l = Some xs -> copy l h = (Return (length h), h ++ [xs]).
Proof. intros Hl. unfold copy, bind, read. by rewrite Hl. Qed.

Lemma then_ret_value {St A B} (m : M St A) (b r : B) (w : St) :
  (bind m (fun _ => ret b) w).1 = Return r -> r = b.
Proof.
  unfold bind. destruct (m w) as [[a|e|why] w']; simpl; [|done..].
  by intros [= ->].
Qed.

Lemma left_unchanged_intro (h : heap) (l : loc) (xs : list tag)
    (run : outcome loc * heap) :
  h !! l = Some xs -> grown h run.2 ->
  (forall r, run.1 = Return r -> r = length h) ->
  left_unchanged h l xs run.
Proof.
  intros Hl Hg Hr. split; [by eapply grown_lookup|]. split; [done|].
  intros r Hrun. split; [by apply Hr|].
  rewrite (Hr r Hrun). apply lookup_lt_Some in Hl. lia.
Qed.

Lemma exclude_tags_frame (fuel : nat) (h : heap) (l : loc) (xs : list tag)
    (args : list string) :
  h !! l = Some xs -> left_unchanged h l xs (exclude_tags fuel l args h).
Proof.
  intros Hl. apply left_unchanged_intro; [done|..];
    unfold exclude_tags; unfold bind at 1; rewrite (copy_lookup _ _ _ Hl).
  - frame_run. by eexists.
  - intros r. apply then_ret_value.
Qed.

Lemma include_tags_frame (fuel : nat) (h : heap) (l : loc) (xs : list tag)
    (args : list string) :
  h !! l = Some xs -> left_unchanged h l xs (include_tags fuel l args h).
Proof.
  intros Hl. apply left_unchanged_intro; [done|..];
    unfold include_tags; unfold bind at 1; unfold alloc at 1.
  - frame_run. by eexists.
  - intros r. apply then_ret_value.
Qed.

Lemma try_ret_value {St A A' B} (m : M St A) (select : exn -> bool)
    (m' : exn -> M St A') (b r : B) (w : St) :
  (try_except (m;; ret b) select
     (fun e => if is_KeyError e then m' e;; ret b else raise e) w).1 = Return r ->
  r = b.
Proof.
  unfold try_except.
  destruct ((m;; ret b) w) as [[a|e|why] w'] eqn:Hm; simpl.
  - intros [= ->]. eapply then_ret_value. by rewrite Hm.
  - destruct (select e); [|done]. destruct (is_KeyError e); [|done].
    apply then_ret_value.
  - done.
Qed.

Lemma remove_duplicates_frame (fuel : nat) (h : heap) (l : loc) (xs : list tag) :
  h !! l = Some xs -> left_unchanged h l xs (remove_duplicates fuel l h).
Proof.
  intros Hl. apply left_unchanged_intro; [done|..];
    unfold remove_duplicates; unfold bind at 1; unfold alloc at 1.
  - frame_run. by eexists.
  - intros r. apply try_ret_value.
Qed.

(** C6. [exclude_tags], [include_tags] and [remove_duplicates] leave the
    caller's list as it was — the same elements in the same order, whatever
    the arguments and however the call ends — and the list they return is a
    new object, not the argument. *)
Theorem helpers_leave_caller_list_unchanged (fuel : nat) (h : heap)
    (tag_list : loc) (xs : list tag) (args : list string) :
  h !! tag_list = Some xs ->
  left_unchanged h tag_list xs (exclude_tags fuel tag_list args h) /\
  left_unchanged h tag_list xs (include_tags fuel tag_list args h) /\
  left_unchanged h tag_list xs (remove_duplicates fuel tag_list h).
Proof.
  intros Hl. split; [|split].
  - by apply exclude_tags_frame.
  - by apply include_tags_frame.
  - by apply remove_duplicates_frame.
Qed.

Lemma helpers_leave_caller_list_unchanged_witness :
  left_unchanged [sample_tags] 0 sample_tags
    (exclude_tags 5 0 ["a"] [sample_tags]) /\
  left_unchanged [sample_tags] 0 sample_tags
    (include_tags 5 0 ["a"] [sample_tags]) /\
  left_unchanged [sample_tags] 0 sample_tags
    (remove_duplicates 5 0 [sample_tags]).
Proof.
  apply (helpers_leave_caller_list_unchanged 5 [sample_tags] 0 sample_tags ["a"]).
  reflexivity.
Defined.

(** ** Exclusion by key *)

Lemma existsb_eqb_elem (k : string) (args : list string) :
  existsb (String.eqb k) args = true <-> k ∈ args.
Proof.
  induction args as [|a args IH]; simpl.
  - split; [done|]. by intros ?%elem_of_nil.
  - rewrite orb_true_iff, IH, elem_of_cons, String.eqb_eq. done.
Qed.

Lemma key_in_true (args : list string) (t : tag) :
  key_in args t = true <-> exists k, t !! "Key" = Some k /\ k ∈ args.
Proof.
  unfold key_in. destruct (t !! "Key") as [k|].
  - rewrite existsb_eqb_elem. split; [by exists k|]. by intros (? & [= ->] & ?).
  - split; [done|]. by intros (? & ? & ?).
Qed.

Lemma remove_first_middle (t : tag) (pre ys : list tag) :
  t ∉ pre -> remove_first t (pre ++ t :: ys) = Some (pre ++ ys).
Proof.
  induction pre as [|p pre IH]; intros Hpre; simpl.
  - by rewrite decide_True.
  - apply not_elem_of_cons in Hpre as [Hne Hpre].
    rewrite decide_False by done. by rewrite IH.
Qed.

Lemma occurrences_cons (u t : tag) (xs : list tag) :
  occurrences u (t :: xs) =
  (if decide (u = t) then 1 else 0) + occurrences u xs.
Proof.
  unfold occurrences. rewrite filter_cons.
  destruct (decide (t = u)), (decide (u = t)); simplify_eq; done.
Qed.

Lemma remove_first_count (t : tag) (c c' : list tag) :
  remove_first t c = Some c' ->
  forall u, occurrences u c =
            occurrences u c' + (if decide (u = t) then 1 else 0).
Proof.
  revert c'. induction c as [|y c IH]; intros c'; cbn [remove_first]; [done|].
  destruct (decide (y = t)) as [->|Hne].
  - intros [= ->] u. rewrite occurrences_cons. lia.
  - destruct (remove_first t c) as [c1|]; [|done]. cbn [option_map].
    intros [= <-] u. specialize (IH c1 eq_refl u).
    rewrite !occurrences_cons. lia.
Qed.

Lemma occurrences_pos (u : tag) (xs : list tag) :
  u ∈ xs -> 0 < occurrences u xs.
Proof.
  intros Hel. unfold occurrences.
  assert (u ∈ filter (fun x => x = u) xs) as Hf by by apply list_elem_of_filter.
  destruct (filter (fun x => x = u) xs); [by apply elem_of_nil in Hf|simpl; lia].
Qed.

Section Exclude.

Variables (h : heap) (args : list string).

(** The body of the inner loop of [exclude_tags], for the tag [t] and the
    copy at the first free location of [h]. *)
Let inner (t : tag) (arg : string) (_ : unit) : M heap (flow unit Empty_set) :=
  key <- getitem t "Key";;
  if String.eqb arg key then remove (length h) t;; ret (Next tt)
  else ret (Next tt).

Lemma exclude_inner_skip (t : tag) (k : string) (c : list tag)
    (rest : list string) :
  t !! "Key" = Some k -> k ∉ rest ->
  for_tuple rest (inner t) tt (h ++ [c]) = (Return (Next tt), h ++ [c]).
Proof.
  intros Hk. induction rest as [|a rest IH]; intros Hnot; [done|].
  apply not_elem_of_cons in Hnot as [Hne Hnot].
  simpl. unfold bind at 1. unfold inner at 1, getitem, bind, ret.
  rewrite Hk. simpl.
  destruct (String.eqb_spec a k) as [->|_]; [done|]. by apply IH.
Qed.

Lemma exclude_inner_hit (t : tag) (k : string) (c c' : list tag)
    (rest : list string) :
  t !! "Key" = Some k -> NoDup rest -> k ∈ rest ->
  remove_first t c = Some c' ->
  for_tuple rest (inner t) tt (h ++ [c]) = (Return (Next tt), h ++ [c']).
Proof.
  intros Hk Hnd Hin Hrm. induction rest as [|a rest IH]; [by apply elem_of_nil in Hin|].
  apply NoDup_cons in Hnd as [Ha Hnd].
  simpl. unfold bind at 1. unfold inner at 1, getitem, bind, ret.
  rewrite Hk. simpl.
  destruct (String.eqb_spec a k) as [->|Hne].
  - rewrite remove_fresh, Hrm. by eapply exclude_inner_skip.
  - apply IH; [done|]. apply elem_of_cons in Hin as [->|]; done.
Qed.

Lemma exclude_loop (Hnd : NoDup args) (ys pre : list tag) :
  Forall has_key ys ->
  Forall (fun t => key_in args t = false) pre ->
  for_tuple ys (fun t (_ : unit) => for_tuple args (inner t) tt) tt
    (h ++ [pre ++ ys]) =
  (Return (Next tt),
   h ++ [pre ++ List.filter (fun t => negb (key_in args t)) ys]).
Proof.
  revert pre. induction ys as [|t ys IH]; intros pre Hkeys Hpre; [done|].
  apply Forall_cons in Hkeys as [[k Hk] Hkeys].
  simpl. unfold bind at 1.
  destruct (key_in args t) eqn:Ht; simpl.
  - assert (k ∈ args) as Hin.
    { apply key_in_true in Ht as (k' & Hk' & ?). by simplify_eq. }
    rewrite (exclude_inner_hit t k (pre ++ t :: ys) (pre ++ ys)); try done.
    + by apply IH.
    + apply remove_first_middle. intros Hel.
      rewrite Forall_forall in Hpre. apply Hpre in Hel. congruence.
  - assert (k ∉ args) as Hin.
    { intros Hin. assert (key_in args t = true); [|congruence].
      apply key_in_true. by exists k. }
    rewrite (exclude_inner_skip t k); try done.
    rewrite (cons_middle t pre ys), (cons_middle t pre (List.filter _ ys)).
    rewrite !app_assoc. apply IH; [done|].
    apply Forall_app. split; [done|]. by apply Forall_singleton.
Qed.

(** Without any assumption on the keys given: each pass of the inner loop
    for a tag [t] removes [t] once for every argument equal to its key, as
    long as there is one to remove.  Counting occurrences tells what a
    completed run leaves. *)
Lemma exclude_inner_count (t : tag) (c : list tag) (rest : list string)
    (r : flow unit Empty_set) (h' : heap) :
  for_tuple rest (inner t) tt (h ++ [c]) = (Return r, h') ->
  exists c', h' = h ++ [c'] /\
    forall u, occurrences u c = occurrences u c' +
              (if decide (u = t) then given_times rest t else 0).
Proof.
  revert c. induction rest as [|a rest IH]; intros c.
  { simpl. intros [= _ <-]. exists c. split; [done|].
    intros u. unfold given_times. destruct (t !! "Key"), (decide (u = t)); simpl; lia. }
  rewrite for_tuple_cons. unfold bind at 1. unfold inner at 1, getitem, bind, ret.
  unfold given_times. destruct (t !! "Key") as [k|] eqn:Hk; simpl; [|done].
  destruct (String.eqb_spec a k) as [->|Hne].
  - rewrite remove_fresh. destruct (remove_first t c) as [c1|] eqn:Hrm; [|done].
    intros Hrun. apply IH in Hrun as (c' & -> & Hcount).
    exists c'. split; [done|]. intros u.
    rewrite (remove_first_count _ _ _ Hrm u), (Hcount u).
    unfold given_times. rewrite Hk.
    destruct (decide (u = t)), (string_dec k k); simpl; try done; lia.
  - intros Hrun. apply IH in Hrun as (c' & -> & Hcount).
    exists c'. split; [done|]. intros u. rewrite (Hcount u).
    unfold given_times. rewrite Hk.
    destruct (decide (u = t)), (string_dec a k); simpl; try done; lia.
Qed.

Lemma exclude_loop_count (ys c : list tag) (r : flow unit Empty_set)
    (h' : heap) :
  for_tuple ys (fun t (_ : unit) => for_tuple args (inner t) tt) tt
    (h ++ [c]) = (Return r, h') ->
  exists c', h' = h ++ [c'] /\
    forall u, occurrences u c =
              occurrences u c' + occurrences u ys * given_times args u.
Proof.
  revert c. induction ys as [|t ys IH]; intros c.
  { simpl. intros [= _ <-]. exists c. split; [done|]. intros u. simpl. lia. }
  rewrite for_tuple_cons. unfold bind at 1.
  destruct (for_tuple args (inner t) tt (h ++ [c])) as [[[[]|[]]|e|why] h1]
    eqn:Hinner; [|done..].
  apply exclude_inner_count in Hinner as (c1 & -> & Hcount1).
  intros Hrun. apply IH in Hrun as (c' & -> & Hcount).
  exists c'. split; [done|]. intros u.
  rewrite (Hcount1 u), (Hcount u), occurrences_cons.
  destruct (decide (u = t)) as [->|Hne]; lia.
Qed.

End Exclude.

(** C1. [exclude_tags] leaves no tag whose key is one of the keys given:
    called with pairwise distinct keys on a list of tags it returns a new
    list, the tags of the input whose key is none of them, in their order,
    however often a key occurs in the input; and for any keys, a list it
    returns holds no tag with one of these keys. *)
Theorem exclude_tags_removes_keys (fuel : nat) (h : heap) (tag_list : loc)
    (xs : list tag) (args : list string) :
  h !! tag_list = Some xs ->
  Forall has_key xs ->
  length xs < fuel ->
  (NoDup args ->
   exclude_tags fuel tag_list args h =
   (Return (length h),
    h ++ [List.filter (fun t => negb (key_in args t)) xs])) /\
  (forall (clean : loc) (h' : heap),
     exclude_tags fuel tag_list args h = (Return clean, h') ->
     exists ys, h' !! clean = Some ys /\
       forall t k, t ∈ ys -> t !! "Key" = Some k -> k ∉ args).
Proof.
  intros Hl Hkeys Hfuel.
  assert (exclude_tags fuel tag_list args h =
          (let (o, h') :=
             for_tuple xs (fun tag (_ : unit) =>
               for_tuple args (fun arg (_ : unit) =>
                 key <- getitem tag "Key";;
                 if String.eqb arg key
                 then remove (length h) tag;; ret (@Next unit Empty_set tt)
                 else ret (Next tt)) tt) tt (h ++ [xs]) in
           match o with
           | Return _ => (Return (length h), h')
           | Raise e => (Raise e, h')
           | Stuck why => (Stuck why, h')
           end)) as ->.
  { unfold exclude_tags. unfold bind at 1. rewrite (copy_lookup _ _ _ Hl).
    unfold bind at 1, no_return. unfold bind at 1.
    rewrite (for_in_snapshot (grown h) _ tag_list xs);
      [|by intros; eapply grown_lookup|intros; frame|by eexists|lia].
    rewrite drop_0.
    by destruct (for_tuple xs _ tt (h ++ [xs])) as [[[[]|[]]|e|why] h']. }
  split.
  - intros Hnd.
    pose proof (exclude_loop h args Hnd xs [] Hkeys (Forall_nil_2 _)) as Hloop.
    simpl in Hloop. by rewrite Hloop.
  - intros clean h'.
    destruct (for_tuple xs _ tt (h ++ [xs])) as [[r|e|why] h1] eqn:Hloop;
      [|done..].
    intros [= <- <-].
    pose proof (exclude_loop_count h args xs xs r h1) as Hcount.
    cbv zeta in Hcount. apply Hcount in Hloop as (ys & -> & Hocc). clear Hcount.
    exists ys. split; [by apply list_lookup_middle|].
    intros t k Hel Hk Hin. specialize (Hocc t).
    apply occurrences_pos in Hel.
    assert (0 < given_times args t).
    { unfold given_times. rewrite Hk.
      by apply (count_occ_In string_dec), list_elem_of_In. }
    nia.
Qed.

Lemma has_key_sample_tags : Forall has_key sample_tags.
Proof. repeat constructor; by eexists. Qed.

Lemma exclude_tags_removes_keys_witness :
  exclude_tags 5 0 ["a"] [sample_tags] =
  (Return 1,
   [sample_tags; List.filter (fun t => negb (key_in ["a"] t)) sample_tags]) /\
  (forall (clean : loc) (h' : heap),
     exclude_tags 5 0 ["a"] [sample_tags] = (Return clean, h') ->
     exists ys, h' !! clean = Some ys /\
       forall t k, t ∈ ys -> t !! "Key" = Some k -> k ∉ ["a"]).
Proof.
  destruct (exclude_tags_removes_keys 5 [sample_tags] 0 sample_tags ["a"])
    as [Hdistinct Hany].
  - reflexivity.
  - exact has_key_sample_tags.
  - simpl. lia.
  - split; [apply Hdistinct, NoDup_singleton|exact Hany].
Defined.

(** A key given twice makes the second [remove] of a tag fail. *)
Example exclude_tags_repeated_key :
  (exclude_tags 5 0 ["b"; "b"] [sample_tags]).1
  = Raise (ValueError "list.remove(x): x not in list").
Proof. reflexivity. Qed.

(** C9. The deprecated [filter_tags] and [exclude_tags] are the same
    function: on every list, every tuple of keys and every heap they end
    in the same outcome and the same heap. *)
Theorem filter_tags_is_exclude_tags (fuel : nat) (tag_list : loc)
    (args : list string) (h : heap) :
  filter_tags fuel tag_list args h = exclude_tags fuel tag_list args h.
Proof.
  unfold filter_tags, exclude_tags.
  (* statement for statement the same body: copy, loop, remove, return *)
  reflexivity.
Qed.

(** ** Deduplication by key *)

Lemma first_of_its_key_spec (xs : list tag) (i : nat) (t : tag) :
  first_of_its_key xs i t = true <->
  forall j u, j < i -> xs !! j = Some u -> u !! "Key" <> t !! "Key".
Proof.
  unfold first_of_its_key. rewrite forallb_forall. split.
  - intros Hall j u Hj Hu. specialize (Hall u).
    rewrite negb_true_iff, bool_decide_eq_false in Hall.
    apply Hall, list_elem_of_In, list_elem_of_lookup. exists j.
    by rewrite lookup_take_lt.
  - intros Hfirst u Hu. rewrite negb_true_iff, bool_decide_eq_false.
    apply list_elem_of_In, list_elem_of_lookup in Hu as [j Hj].
    apply lookup_take_Some in Hj as [Hj Hlt]. by eapply Hfirst.
Qed.

Lemma elem_of_keep_at (p : nat -> tag -> bool) (xs : list tag) (i : nat) (u : tag) :
  u ∈ keep_at p i xs <-> exists j, xs !! j = Some u /\ p (i + j) u = true.
Proof.
  revert i. induction xs as [|t xs IH]; intros i; simpl.
  - split; [by intros ?%elem_of_nil|]. by intros (j & ? & _).
  - assert (u ∈ keep_at p (S i) xs <->
            exists j, (t :: xs) !! S j = Some u /\ p (i + S j) u = true) as IH'.
    { rewrite IH. by setoid_rewrite Nat.add_succ_r. }
    destruct (p i t) eqn:Hp; [rewrite elem_of_cons|]; rewrite IH'; clear IH IH'.
    + split.
      * intros [->|(j & ? & ?)]; [exists 0|exists (S j)]; [|done].
        by rewrite Nat.add_0_r.
      * intros ([|j] & Hj & Hpj); [left|right; by exists j].
        by injection Hj.
    + split; [intros (j & ? & ?); by exists (S j)|].
      intros ([|j] & Hj & Hpj); [|by exists j].
      injection Hj as ->. rewrite Nat.add_0_r in Hpj. congruence.
Qed.

Lemma keep_at_sublist (p : nat -> tag -> bool) (xs : list tag) (i : nat) :
  sublist (keep_at p i xs) xs.
Proof.
  revert i. induction xs as [|t xs IH]; intros i; simpl; [done|].
  destruct (p i t); [by apply sublist_skip|by apply sublist_cons].
Qed.

Lemma keep_at_ext (p q : nat -> tag -> bool) (xs : list tag) (i : nat) :
  (forall j t, xs !! j = Some t -> p (i + j) t = q (i + j) t) ->
  keep_at p i xs = keep_at q i xs.
Proof.
  revert i. induction xs as [|t xs IH]; intros i Hpq; simpl; [done|].
  rewrite (IH (S i)).
  - specialize (Hpq 0 t eq_refl). rewrite Nat.add_0_r in Hpq. by rewrite Hpq.
  - intros j u Hj. specialize (Hpq (S j) u Hj).
    by rewrite Nat.add_succ_r in Hpq.
Qed.

(** Tags kept as the first of their key have pairwise different keys. *)
Lemma keep_first_keys_NoDup (xs : list tag) :
  NoDup (map (fun t : tag => t !! "Key") (keep_first_per_key xs)).
Proof.
  unfold keep_first_per_key.
  assert (forall (ys : list tag) i,
    (forall j u, ys !! j = Some u -> xs !! (i + j) = Some u) ->
    NoDup (map (fun t : tag => t !! "Key") (keep_at (first_of_its_key xs) i ys)))
    as Hgen.
  { induction ys as [|t ys IH]; intros i Hys; simpl; [constructor|].
    assert (NoDup (map (fun t : tag => t !! "Key")
                     (keep_at (first_of_its_key xs) (S i) ys))) as Hrest.
    { apply IH. intros j u Hj. rewrite Nat.add_succ_l, <- Nat.add_succ_r.
      by apply Hys. }
    destruct (first_of_its_key xs i t) eqn:Hp; [|done].
    simpl. constructor; [|done].
    intros (u & Hku & Hu)%list_elem_of_fmap.
    apply elem_of_keep_at in Hu as (j & Hj & Hfirst).
    rewrite first_of_its_key_spec in Hfirst.
    apply (Hfirst i t); [lia| |done].
    specialize (Hys 0 t eq_refl). by rewrite Nat.add_0_r in Hys. }
  apply Hgen. by intros j u Hj.
Qed.

Section Dedup.

Variable h : heap.

(** The body of the first loop of [remove_duplicates]. *)
Let keep (dict : tag) (key_list : list string)
    : M heap (flow (list string) Empty_set) :=
  key <- getitem dict "Key";;
  if negb (existsb (String.eqb key) key_list) then
    append (length h) dict;;
    key <- getitem dict "Key";;
    ret (Next (key_list ++ [key]))
  else ret (Next key_list).

Lemma dedup_loop (suf pre : list tag) (key_list : list string) (c : list tag) :
  Forall has_key suf ->
  (forall k, k ∈ key_list <-> exists u, u ∈ pre /\ u !! "Key" = Some k) ->
  exists key_list',
    for_tuple suf keep key_list (h ++ [c]) =
    (Return (Next key_list'),
     h ++ [c ++ keep_at (first_of_its_key (pre ++ suf)) (length pre) suf]).
Proof.
  revert pre key_list c.
  induction suf as [|t suf IH]; intros pre key_list c Hkeys Hseen.
  { exists key_list. simpl. by rewrite app_nil_r. }
  apply Forall_cons in Hkeys as [[k Hk] Hkeys].
  assert (first_of_its_key (pre ++ t :: suf) (length pre) t
          = negb (existsb (String.eqb k) key_list)) as Hfirst.
  { unfold first_of_its_key. rewrite take_app_length.
    apply eq_true_iff_eq.
    rewrite negb_true_iff, <- not_true_iff_false, existsb_eqb_elem, Hseen.
    rewrite forallb_forall. split.
    - intros Hall (u & Hu & Hku). apply list_elem_of_In, Hall in Hu.
      rewrite negb_true_iff, bool_decide_eq_false in Hu. congruence.
    - intros Hnone u Hu. rewrite negb_true_iff, bool_decide_eq_false.
      intros Hsame. apply Hnone. exists u. split; [by apply list_elem_of_In|].
      congruence. }
  simpl. rewrite Hfirst. unfold bind at 1. unfold keep at 1, getitem, bind, ret.
  rewrite Hk. simpl.
  assert (keep_at (first_of_its_key (pre ++ t :: suf)) (S (length pre)) suf
          = keep_at (first_of_its_key ((pre ++ [t]) ++ suf))
              (length (pre ++ [t])) suf) as ->.
  { rewrite length_app, Nat.add_1_r, <- app_assoc. done. }
  destruct (existsb (String.eqb k) key_list) eqn:Hold; simpl.
  - destruct (IH (pre ++ [t]) key_list c Hkeys) as [kl' ->]; [|by exists kl'].
    intros k'. rewrite Hseen. setoid_rewrite elem_of_app.
    setoid_rewrite list_elem_of_singleton. split.
    { intros (u & ? & ?). exists u. auto. }
    intros (u & [Hu| ->] & Hku); [by exists u|].
    apply Hseen, existsb_eqb_elem. congruence.
  - rewrite append_fresh. simpl.
    destruct (IH (pre ++ [t]) (key_list ++ [k]) (c ++ [t]) Hkeys) as [kl' ->].
    + intros k'. rewrite elem_of_app, list_elem_of_singleton, Hseen.
      setoid_rewrite elem_of_app. setoid_rewrite list_elem_of_singleton.
      split.
      * intros [(u & ? & ?)| ->]; [exists u|exists t]; auto.
      * intros (u & [?| ->] & ?); [left; by exists u|right; congruence].
    + exists kl'. by rewrite <- app_assoc.
Qed.

End Dedup.

(** C2. On a list of tags, [remove_duplicates] returns a new list: the
    subsequence of the input that keeps, for each key, the first tag
    carrying it and no other tag; the keys of the returned list are pairwise
    different. *)
Theorem remove_duplicates_keeps_first_per_key (fuel : nat) (h : heap)
    (list_ : loc) (xs : list tag) :
  h !! list_ = Some xs ->
  Forall has_key xs ->
  length xs < fuel ->
  exists clean : list tag,
    remove_duplicates fuel list_ h = (Return (length h), h ++ [clean]) /\
    clean = keep_first_per_key xs /\
    sublist clean xs /\
    NoDup (map (fun t : tag => t !! "Key") clean) /\
    forall t, t ∈ clean <->
      exists i, xs !! i = Some t /\
        forall j u, j < i -> xs !! j = Some u -> u !! "Key" <> t !! "Key".
Proof.
  intros Hl Hkeys Hfuel. exists (keep_first_per_key xs).
  split; [|split; [done|split; [|split]]].
  - unfold remove_duplicates. unfold bind at 1. unfold alloc at 1.
    unfold try_except, bind at 1, no_return. unfold bind at 1.
    rewrite (for_in_snapshot (grown h) _ list_ xs);
      [|by intros; eapply grown_lookup|intros; frame|by eexists|lia].
    rewrite drop_0.
    destruct (dedup_loop h xs [] [] [] Hkeys) as [kl Hloop].
    { intros k. split; [by intros ?%elem_of_nil|].
      by intros (u & ?%elem_of_nil & _). }
    simpl in Hloop. by rewrite Hloop.
  - apply keep_at_sublist.
  - apply keep_first_keys_NoDup.
  - intros t. unfold keep_first_per_key. rewrite elem_of_keep_at.
    by setoid_rewrite first_of_its_key_spec.
Qed.

Lemma remove_duplicates_keeps_first_per_key_witness :
  exists clean : list tag,
    remove_duplicates 5 0 [sample_tags] = (Return 1, [sample_tags; clean]) /\
    clean = keep_first_per_key sample_tags /\
    sublist clean sample_tags /\
    NoDup (map (fun t : tag => t !! "Key") clean) /\
    forall t, t ∈ clean <->
      exists i, sample_tags !! i = Some t /\
        forall j u, j < i -> sample_tags !! j = Some u ->
          u !! "Key" <> t !! "Key".
Proof.
  apply (remove_duplicates_keeps_first_per_key 5 [sample_tags] 0 sample_tags).
  - reflexivity.
  - exact has_key_sample_tags.
  - simpl. lia.
Defined.

(** A dict without ['Key'] is not a tag: the first loop stops at it with a
    [KeyError], and the handler goes through the list again comparing whole
    dicts, so that tags sharing a key stay. *)
Example remove_duplicates_dict_without_key :
  remove_duplicates 5 0 [[tag_a1; tag_a3; dict_without_key]]
  = (Return 1, [[tag_a1; tag_a3; dict_without_key];
                [tag_a1; tag_a3; dict_without_key]]).
Proof. reflexivity. Qed.

(** ** Validation of keys *)

Lemma prefix_empty (s : string) : String.prefix "" s = true.
Proof. by destruct s. Qed.

(** For a needle of one character, the substring test is membership of the
    character. *)
Lemma str_contains_char (c : ascii) (s : string) :
  str_contains (String c "") s = true <-> In c (list_ascii_of_string s).
Proof.
  induction s as [|d s IH]; simpl; [by split|].
  rewrite orb_true_iff, IH. destruct (ascii_dec c d) as [->|Hne].
  - rewrite prefix_empty. tauto.
  - split; [intros [?|?]; [done|by right]|]. intros [?|?]; [congruence|by right].
Qed.

Lemma valid_loop (h : heap) (ys : list tag) :
  Forall has_key ys ->
  for_tuple ys (fun tag (_ : unit) =>
      key <- getitem tag "Key";;
      if str_contains ":" key then ret (Returned false)
      else ret (Next tt)) tt h =
  (Return (if existsb colon_in_key ys then Returned false else Next tt), h).
Proof.
  induction ys as [|t ys IH]; intros Hkeys; [done|].
  apply Forall_cons in Hkeys as [[k Hk] Hkeys].
  simpl. unfold colon_in_key at 1. unfold bind at 1. unfold getitem, bind, ret.
  rewrite Hk. destruct (str_contains ":" k); [done|]. by apply IH.
Qed.

(** C3. On a list of tags, [valid_tags] returns [False] exactly when some
    tag of the list has a key containing the character [:], and [True]
    otherwise; the heap is as before. *)
Theorem valid_tags_rejects_colon (fuel : nat) (h : heap) (tag_list : loc)
    (xs : list tag) :
  h !! tag_list = Some xs ->
  Forall has_key xs ->
  length xs < fuel ->
  exists b : bool,
    valid_tags fuel tag_list h = (Return b, h) /\
    (b = false <->
     exists t k, t ∈ xs /\ t !! "Key" = Some k /\
                 In ":"%char (list_ascii_of_string k)).
Proof.
  intros Hl Hkeys Hfuel. exists (negb (existsb colon_in_key xs)). split.
  - unfold valid_tags. unfold bind at 1.
    rewrite (for_in_snapshot (fun h' => h' = h) _ tag_list xs);
      [|by intros ? ->|intros; frame|done|lia].
    rewrite drop_0, (valid_loop h xs Hkeys).
    by destruct (existsb colon_in_key xs).
  - rewrite negb_false_iff, existsb_exists. split.
    + intros (t & Hin & Hcolon). unfold colon_in_key in Hcolon.
      destruct (t !! "Key") as [k|] eqn:Hk; [|done].
      exists t, k. split; [by apply list_elem_of_In|].
      split; [done|]. by apply str_contains_char.
    + intros (t & k & Hin & Hk & Hcolon). exists t.
      split; [by apply list_elem_of_In|].
      unfold colon_in_key. rewrite Hk. by apply str_contains_char.
Qed.

Lemma valid_tags_rejects_colon_witness :
  exists b : bool,
    valid_tags 5 0 [[tag_a1; tag_colon; tag_b2]]
      = (Return b, [[tag_a1; tag_colon; tag_b2]]) /\
    (b = false <->
     exists t k, t ∈ [tag_a1; tag_colon; tag_b2] /\ t !! "Key" = Some k /\
                 In ":"%char (list_ascii_of_string k)).
Proof.
  apply (valid_tags_rejects_colon 5 [[tag_a1; tag_colon; tag_b2]] 0).
  - reflexivity.
  - repeat constructor; by eexists.
  - simpl. lia.
Defined.

(** A dict without ['Key'] is not validated: the lookup raises. *)
Example valid_tags_dict_without_key :
  valid_tags 5 0 [[tag_a1; dict_without_key]]
  = (Raise (KeyError "Key"), [[tag_a1; dict_without_key]]).
Proof. reflexivity. Qed.

(** ** Division by key *)

Lemma append_middle (h : heap) (m : list tag) (rest : heap) (x : tag) :
  append (length h) x (h ++ m :: rest) = (Return tt, h ++ (m ++ [x]) :: rest).
Proof.
  unfold append, bind, read, write. rewrite list_lookup_middle by done.
  f_equal. rewrite insert_app_r_alt by done. by rewrite Nat.sub_diag.
Qed.

Lemma dict_of_single_tag (fuel : nat) (h : heap) (l : loc) (t : tag)
    (k v : string) :
  h !! l = Some [t] -> t !! "Key" = Some k -> t !! "Value" = Some v ->
  1 < fuel ->
  dict_of_tags fuel l h = (Return [(k, v)], h).
Proof.
  intros Hl Hk Hv Hfuel. unfold dict_of_tags, no_return. unfold bind at 1.
  rewrite (for_in_snapshot (fun h' => h' = h) _ l [t]);
    [|by intros ? ->|intros; frame|done|simpl; lia].
  simpl. unfold bind, getitem, ret. by rewrite Hk, Hv.
Qed.

Section Divide.

Variables (h : heap) (rest : heap) (k v : string).

(** The body of the loops of [divide_tags]: what is done for the argument
    [key] at the entry [(k', v')] of [tag_dict]. *)
Let entry (key : string) : string * string -> list (string * string) ->
    M heap (flow (list (string * string)) Empty_set) :=
  fun '(k', v') residual =>
    try_except
      (if String.eqb key k' then
         append (length h) (new_tag k' v');;
         ret (Next residual)
       else
         match odict_pop key residual with
         | Some (_, residual') => ret (Next residual')
         | None => raise (KeyError key)
         end)
      is_KeyError
      (fun _ => ret (Next residual)).

(** With a [tag_dict] and a [residual] that hold the one entry [k: v], an
    argument appends to the matching list when it is [k], and otherwise
    fails to pop itself from [residual]. *)
Lemma divide_step (a : string) (m : list tag) :
  for_tuple [(k, v)] (entry a) [(k, v)] (h ++ m :: rest) =
  (Return (Next [(k, v)]),
   h ++ (m ++ (if string_dec a k then [new_tag k v] else [])) :: rest).
Proof.
  rewrite for_tuple_cons. unfold bind at 1. unfold entry, try_except.
  destruct (String.eqb_spec a k) as [->|Hne].
  - unfold bind at 1. rewrite append_middle. simpl.
    by destruct (string_dec k k).
  - simpl. destruct (String.eqb_spec a k) as [|_]; [done|]. simpl.
    destruct (string_dec a k); [done|]. by rewrite app_nil_r.
Qed.

Lemma divide_loop (args : list string) (m : list tag) :
  for_tuple args (fun key residual => for_tuple [(k, v)] (entry key) residual)
    [(k, v)] (h ++ m :: rest) =
  (Return (Next [(k, v)]),
   h ++ (m ++ replicate (count_occ string_dec args k) (new_tag k v)) :: rest).
Proof.
  revert m. induction args as [|a args IH]; intros m.
  { simpl. by rewrite app_nil_r. }
  rewrite for_tuple_cons. unfold bind at 1. rewrite divide_step, IH.
  simpl. destruct (string_dec a k); simpl.
  - by rewrite <- app_assoc.
  - by rewrite app_nil_r.
Qed.

End Divide.

(** C10. For a list holding one tag, whose key is among the arguments,
    [divide_tags] returns the tag (its key and value) in both lists: once in
    the matching list for each time the key is given, and still in the
    residual list, which the loop pops from only while it looks at a
    different key. *)
Theorem divide_tags_single_tag_in_both (fuel : nat) (h : heap) (tag_list : loc)
    (t : tag) (k v : string) (args : list string) :
  h !! tag_list = Some [t] ->
  t !! "Key" = Some k ->
  t !! "Value" = Some v ->
  k ∈ args ->
  1 < fuel ->
  exists matching residual : list tag,
    divide_tags fuel tag_list args h =
      (Return (length h, length h + 2), h ++ [matching; [t]; residual]) /\
    matching = replicate (count_occ string_dec args k) (new_tag k v) /\
    residual = [new_tag k v] /\
    new_tag k v ∈ matching /\ new_tag k v ∈ residual.
Proof.
  intros Hl Hk Hv Hin Hfuel. do 2 eexists.
  split; [|split; [reflexivity|split; [reflexivity|split]]].
  - unfold divide_tags. unfold bind at 1. unfold alloc at 1.
    unfold bind at 1. rewrite (copy_lookup _ tag_list [t])
      by (by apply lookup_app_l_Some).
    rewrite length_app. simpl length.
    unfold bind at 1.
    rewrite (dict_of_single_tag fuel _ (length h + 1) t k v); try done;
      [|by apply list_lookup_middle; rewrite length_app].
    unfold bind at 1.
    rewrite (dict_of_single_tag fuel _ tag_list t k v); try done;
      [|by rewrite <- app_assoc; apply lookup_app_l_Some].
    unfold bind at 1, no_return. unfold bind at 1.
    rewrite <- app_assoc. simpl app.
    pose proof (divide_loop h [[t]] k v args []) as Hloop.
    cbv beta zeta in Hloop. rewrite Hloop. clear Hloop.
    unfold ret at 1. unfold bind at 1, alloc at 1. unfold ret.
    rewrite length_app. simpl. by rewrite <- app_assoc.
  - apply list_elem_of_In, (count_occ_In string_dec) in Hin.
    destruct (count_occ string_dec args k); [lia|]. simpl. by left.
  - by apply list_elem_of_singleton.
Qed.

Lemma divide_tags_single_tag_in_both_witness :
  exists matching residual : list tag,
    divide_tags 2 0 ["b"; "a"; "a"] [[tag_a1]] =
      (Return (1, 3), [[tag_a1]; matching; [tag_a1]; residual]) /\
    matching = replicate (count_occ string_dec ["b"; "a"; "a"] "a")
                 (new_tag "a" "1") /\
    residual = [new_tag "a" "1"] /\
    new_tag "a" "1" ∈ matching /\ new_tag "a" "1" ∈ residual.
Proof.
  apply (divide_tags_single_tag_in_both 2 [[tag_a1]] 0 tag_a1 "a" "1"
           ["b"; "a"; "a"]).
  - reflexivity.
  - reflexivity.
  - reflexivity.
  - apply list_elem_of_further, list_elem_of_here.
  - lia.
Defined.

(** ** Deleting tags through the provider's API *)

(** What [delete_tags] does with a list that is not empty is decided by the
    call for the first resource: it returns after it. *)
Lemma delete_tags_first_resource (client : list string -> list tag -> api_reply)
    (rid : string) (others : list string) (tags : list tag) (w : world) :
  delete_tags client (rid :: others) tags w =
  match client [rid] tags with
  | HTTPStatus code =>
      if (code =? 200)%Z then
        (Return (VBool true),
         World (stdout w)
           (records w ++
            [(INFO, VStr ("Existing Tags deleted from vol id " +:+ rid))]))
      else
        (Return (VBool false),
         World (stdout w)
           (records w ++
            [(WARNING,
              VStr ("Problem deleting existing tags from vol id " +:+ rid))]))
  | ApiRaises (ClientError code message) =>
      (Return (VBool false),
       World (stdout w)
         (records w ++
          [(CRITICAL,
            VStr ("delete_tags: Problem apply tags to ec2 instances (Code: "
                  +:+ code +:+ " Message: " +:+ message +:+ ")"))]))
  | ApiRaises e => (Raise e, w)
  end.
Proof.
  unfold delete_tags, try_except, bind, client_delete_tags. simpl.
  unfold bind. destruct (client [rid] tags) as [code|e]; simpl.
  - by destruct (code =? 200)%Z.
  - by destruct e.
Qed.

(** A [ClientError] of the call is logged and turned into [False]. *)
Lemma delete_tags_catches_ClientError
    (client : list string -> list tag -> api_reply)
    (rid : string) (others : list string) (tags : list tag) (w : world)
    (code message : string) :
  client [rid] tags = ApiRaises (ClientError code message) ->
  exists w', delete_tags client (rid :: others) tags w = (Return (VBool false), w')
    /\ exists line, records w' = records w ++ [(CRITICAL, line)].
Proof.
  intros Hc. rewrite delete_tags_first_resource, Hc. eexists. split; [done|].
  by eexists.
Qed.

(** C4. With no resource id to work on, [delete_tags] runs no iteration of
    its loop and ends without a [return] statement: the call yields [None],
    which is not a boolean, and logs nothing. *)
Theorem delete_tags_no_resource_returns_None
    (client : list string -> list tag -> api_reply) (tags : list tag)
    (w : world) :
  delete_tags client [] tags w = (Return VNone, w) /\
  forall b : bool, VNone <> VBool b.
Proof. split; [reflexivity|]. by intros b. Qed.

(** ** The console helper *)

Lemma upper_empty (U : casing) : upper U "" = "".
Proof. by rewrite upper_ascii. Qed.

Lemma upper_truthy (U : casing) (s : string) :
  str_truthy (upper U s) = str_truthy s.
Proof.
  destruct s as [|c s]; [by rewrite upper_empty|].
  destruct (upper U (String c s)) eqn:Hu; [|done].
  by apply upper_nonempty in Hu.
Qed.

Lemma str_truthy_nonempty (s : string) : str_truthy s = true <-> s <> "".
Proof. destruct s; simpl; [split; [done|by intros []]|by split]. Qed.

(** A string is none of the two status tuples: the guard of the usage error
    tests the prefix against the tuples, not against their elements. *)
Lemma prefix_never_in_status_pair (p : string) :
  py_in (VStr p) [VTuple critical_status; VTuple warning_status] = false.
Proof. reflexivity. Qed.

Lemma log_message_run (label : string) (msg : pyval) (w : world) :
  log_message label msg w =
  (Return true, World (stdout w) (records w ++ [(level_for label, msg)])).
Proof.
  unfold log_message, level_for, bind.
  by destruct (py_in (VStr label) critical_status),
              (py_in (VStr label) warning_status).
Qed.

Lemma expandtabs_fits (z : Z) (s : string) :
  fits_int z -> expandtabs z s = Return (expand z 0 s).
Proof.
  intros [Hlo Hhi]. unfold expandtabs.
  apply Z.leb_le in Hlo, Hhi. by rewrite Hlo, Hhi.
Qed.


Section ConsoleProperties.

Variables (C : colors) (U : casing) (to_str : pyval -> string + exn).

(** The membership tests stay folded while a run is simplified. *)
#[local] Arguments py_in : simpl never.

(** A prefix that is not a string has no [upper]: the first statement
    raises. *)
Lemma stdout_message_prefix_not_str (message prefix : pyval)
    (quiet multiline : bool) (indent severity : pyval) (logging : bool)
    (w : world) (e : exn) :
  py_upper U prefix = Raise e ->
  stdout_message C U to_str message prefix quiet multiline indent severity
    logging w
  = (Raise e, w).
Proof. intros Hp. unfold stdout_message, bind, lift. by rewrite Hp. Qed.

(** An indent [int] refuses: the second statement raises. *)
Lemma stdout_message_indent_refused (message : pyval) (p : string)
    (quiet multiline : bool) (indent severity : pyval) (logging : bool)
    (w : world) (e : exn) :
  py_int indent = Raise e ->
  stdout_message C U to_str message (VStr p) quiet multiline indent severity
    logging w
  = (Raise e, w).
Proof. intros Hi. unfold stdout_message, bind, lift. simpl. by rewrite Hi. Qed.

Lemma stdout_message_quiet (message : pyval) (p : string) (multiline : bool)
    (indent : pyval) (z : Z) (severity : pyval) (logging : bool) (w : world) :
  py_int indent = Return z ->
  stdout_message C U to_str message (VStr p) true multiline indent severity
    logging w
  = (Return true, w).
Proof. intros Hi. unfold stdout_message, bind, lift. simpl. by rewrite Hi. Qed.

(** With a severity, the usage error is all that happens. *)
Lemma stdout_message_severity (message : pyval) (p : string)
    (multiline : bool) (indent : pyval) (z : Z) (s : string) (logging : bool)
    (w : world) :
  py_int indent = Return z -> s <> "" ->
  stdout_message C U to_str message (VStr p) false multiline indent (VStr s)
    logging w
  = (Return false, World (stdout w ++ [usage_error]) (records w)).
Proof.
  intros Hi Hs. unfold stdout_message, bind, lift. simpl. rewrite Hi.
  rewrite upper_truthy, andb_true_r.
  apply str_truthy_nonempty in Hs. by rewrite Hs.
Qed.

(** Without a severity, the [try] block runs: it expands a header, chosen
    by the prefix, asks for the text of the message, prints the two, and
    forwards the message when asked to; if the header cannot be expanded or
    the message has no text, the handler reports that instead. *)
Lemma stdout_message_plain (message : pyval) (p : string) (multiline : bool)
    (indent : pyval) (z : Z) (w : world) :
  py_int indent = Return z ->
  exists header : string, forall logging : bool,
    stdout_message C U to_str message (VStr p) false multiline indent (VStr "")
      logging w =
    match expandtabs z header with
    | Return expanded =>
        match to_str message with
        | inl text =>
            (Return true,
             World (stdout w ++ [message_line multiline expanded text])
               (if logging
                then records w ++ [(level_for (upper U p), message)]
                else records w))
        | inr e =>
            (Return false, World (stdout w ++ [problem_report e]) (records w))
        end
    | Raise e =>
        (Return false, World (stdout w ++ [problem_report e]) (records w))
    | Stuck why => (Stuck why, w)
    end.
Proof.
  intros Hi.
  destruct (py_in (VStr (upper U p)) critical_status) eqn:Hcritical;
    [|destruct (String.eqb (upper U p) "OK") eqn:Hok;
      [|destruct (py_in (VStr (upper U p)) [VStr "DONE"; VStr "GOOD"])
          eqn:Hdone]];
    eexists; intros logging;
    unfold stdout_message, bind, lift; simpl; rewrite Hi, upper_empty;
    unfold try_except, bind, ret; simpl;
    change (py_in (VStr "") warning_status) with false;
    rewrite ?Hcritical, ?Hok, ?Hdone; simpl;
    lazymatch goal with
    | |- _ = match expandtabs z ?chosen with _ => _ end =>
        match goal with
        | |- context [expandtabs z ?header] =>
            assert_fails (is_evar header); unify chosen header;
            destruct (expandtabs z header) as [expanded|e|why]
        end
    end;
    destruct multiline, logging, (to_str message) as [text|e'];
    simpl; rewrite ?log_message_run; reflexivity.
Qed.

End ConsoleProperties.

(** *** What reaches the logger *)

Section LoggerUntouched.

Variable (recs : list (level * pyval)).

Let same_records (w : world) : Prop := records w = recs.

Lemma preserves_print (text : string) : preserves same_records (print text).
Proof. by intros w Hw. Qed.

Lemma preserves_lift {A} (r : outcome A) : preserves same_records (lift r).
Proof. by intros w Hw. Qed.

(** With [logging=False] no statement of [stdout_message] reaches the
    logger, whatever the other arguments are and however the call ends. *)
Lemma stdout_message_without_logging (C : colors) (U : casing)
    (to_str : pyval -> string + exn) (message prefix : pyval)
    (quiet multiline : bool) (indent severity : pyval) :
  preserves same_records
    (stdout_message C U to_str message prefix quiet multiline indent severity
       false).
Proof.
  unfold stdout_message.
  eauto 30 using preserves_print, preserves_lift with frame.
Qed.

End LoggerUntouched.

Section ConsoleClaims.

Variables (C : colors) (U : casing) (to_str : pyval -> string + exn).

(** C8. With [quiet=False], a severity that is not the empty string makes
    [stdout_message] print the usage error, and nothing else, and return
    [False], whatever the prefix: the prefix is tested against the two
    status tuples themselves, and a string is neither of them. *)
Theorem severity_always_reports_usage_error (message : pyval) (p : string)
    (multiline : bool) (indent : pyval) (z : Z) (s : string) (logging : bool)
    (w : world) :
  py_int indent = Return z ->
  s <> "" ->
  stdout_message C U to_str message (VStr p) false multiline indent (VStr s)
    logging w
    = (Return false, World (stdout w ++ [usage_error]) (records w)) /\
  py_in (VStr p) [VTuple critical_status; VTuple warning_status] = false.
Proof.
  intros Hi Hs. split; [by eapply stdout_message_severity|].
  apply prefix_never_in_status_pair.
Qed.


(** C7. Forwarding follows the [logging] flag.  A call with [quiet=False]
    and no severity, whose indent [int] accepts and [expandtabs] can use
    and whose message has a text, prints one line ending in that text and
    returns [True]; with [logging=True] it has handed the message to the
    logger exactly once, at the level its upper-cased prefix selects, and
    with [logging=False] not at all; for an ASCII prefix that level is the
    one of its ASCII upper case.  With [logging=False] no call reaches the
    logger, whatever its arguments and its end; and whenever a call with
    [quiet=False] and [logging=True] returns [True], it has printed one
    line and logged the message once, at the level of its upper-cased
    prefix. *)
Theorem logging_flag_controls_forwarding (message : pyval) (p : string)
    (multiline : bool) (indent : pyval) (z : Z) (text : string) (w : world) :
  (py_int indent = Return z -> fits_int z -> to_str message = inl text ->
   exists header : string,
     stdout_message C U to_str message (VStr p) false multiline indent (VStr "")
       true w
     = (Return true,
        World (stdout w ++ [message_line multiline (expand z 0 header) text])
          (records w ++ [(level_for (upper U p), message)])) /\
     stdout_message C U to_str message (VStr p) false multiline indent (VStr "")
       false w
     = (Return true,
        World (stdout w ++ [message_line multiline (expand z 0 header) text])
          (records w)) /\
     (ascii_text p = true ->
      level_for (upper U p) = level_for (str_upper p))) /\
  (forall (prefix severity indent' : pyval) (quiet multiline' : bool),
     records (stdout_message C U to_str message prefix quiet multiline' indent'
                severity false w).2 = records w) /\
  (forall (prefix severity indent' : pyval) (multiline' : bool) (w' : world),
     stdout_message C U to_str message prefix false multiline' indent' severity
       true w = (Return true, w') ->
     exists (p' line : string),
       prefix = VStr p' /\
       stdout w' = stdout w ++ [line] /\
       records w' = records w ++ [(level_for (upper U p'), message)]).
Proof.
  split; [|split].
  - intros Hi Hz Htext.
    destruct (stdout_message_plain C U to_str message p multiline indent z w Hi)
      as [header Hrun].
    exists header.
    rewrite !Hrun, !expandtabs_fits, Htext by done.
    split; [done|]. split; [done|]. intros Hp. by rewrite upper_ascii.
  - intros prefix severity indent' quiet multiline'.
    by apply stdout_message_without_logging.
  - intros prefix severity indent' multiline' w' Hrun.
    destruct (py_upper U prefix) as [pu|e|why] eqn:Hp;
      [|unfold stdout_message, bind, lift in Hrun; by rewrite Hp in Hrun..].
    destruct prefix as [| | |p'|]; try done. clear Hp pu.
    destruct (py_int indent') as [z'|e|why] eqn:Hi;
      [|unfold stdout_message, bind, lift in Hrun; simpl in Hrun;
        by rewrite Hi in Hrun..].
    destruct (py_upper U severity) as [su|e|why] eqn:Hs;
      [|unfold stdout_message, bind, lift in Hrun; simpl in Hrun;
        by rewrite Hi, Hs in Hrun..].
    destruct severity as [| | |s|]; try done. clear Hs su.
    destruct (decide (s = "")) as [->|Hs];
      [|by rewrite (stdout_message_severity C U to_str message p' multiline'
                      indent' z' s) in Hrun].
    destruct (stdout_message_plain C U to_str message p' multiline' indent' z'
                w Hi) as [header Hplain].
    rewrite Hplain in Hrun.
    destruct (expandtabs z' header) as [expanded|e|why]; [|done..].
    destruct (to_str message) as [text'|e]; [|done].
    injection Hrun as <-. by do 2 eexists.
Qed.

End ConsoleClaims.

Lemma severity_always_reports_usage_error_witness :
  stdout_message ansi ascii_casing str_of_value (VStr "disk full") (VStr "ERROR") false
    false (VInt 4) (VStr "critical") true empty_world
    = (Return false, World [usage_error] []) /\
  py_in (VStr "ERROR") [VTuple critical_status; VTuple warning_status] = false.
Proof.
  apply (severity_always_reports_usage_error ansi ascii_casing str_of_value
           (VStr "disk full") "ERROR" false (VInt 4) 4 "critical" true
           empty_world).
  - reflexivity.
  - discriminate.
Defined.



(** A tab size beyond the C [int] is one of the errors the handler
    reports. *)
Lemma stdout_message_overflow_example :
  stdout_message ansi ascii_casing str_of_value (VStr "hello") (VStr "info")
    false true (VInt (2 ^ 31)) (VStr "") true empty_world
  = (Return false,
     World ["stdout_message: Problem sending msg to stdout: Python int too large to convert to C int"]
       []).
Proof. reflexivity. Qed.

Lemma logging_flag_controls_forwarding_witness :
  exists header : string,
    stdout_message ansi ascii_casing str_of_value (VStr "low disk")
      (VStr "warn") false true (VInt 4) (VStr "") true empty_world
    = (Return true,
       World (stdout empty_world ++
              [message_line true (expand 4 0 header) "low disk"])
         (records empty_world ++
          [(level_for (upper ascii_casing "warn"), VStr "low disk")])) /\
    stdout_message ansi ascii_casing str_of_value (VStr "low disk")
      (VStr "warn") false true (VInt 4) (VStr "") false empty_world
    = (Return true,
       World (stdout empty_world ++
              [message_line true (expand 4 0 header) "low disk"])
         (records empty_world)) /\
    (ascii_text "warn" = true ->
     level_for (upper ascii_casing "warn") = level_for (str_upper "warn")).
Proof.
  destruct (logging_flag_controls_forwarding ansi ascii_casing str_of_value
              (VStr "low disk") "warn" true (VInt 4) 4 "low disk" empty_world)
    as [Hrun _].
  apply Hrun.
  - reflexivity.
  - by vm_compute.
  - reflexivity.
Defined.

(** * Further properties of the tag helpers *)

(** ** Inclusion by key *)

Lemma for_tuple_app {St A S R} (t1 t2 : list A)
    (body : A -> S -> M St (flow S R)) (s : S) (w : St) :
  for_tuple (t1 ++ t2) body s w =
  match for_tuple t1 body s w with
  | (Return (Next s'), w') => for_tuple t2 body s' w'
  | r => r
  end.
Proof.
  revert s w. induction t1 as [|x t1 IH]; intros s w; [done|].
  rewrite <- app_comm_cons, !for_tuple_cons. unfold bind.
  destruct (body x s w) as [[[s'|v]|e|why] w']; [apply IH|done..].
Qed.

Lemma given_times_NoDup (args : list string) (t : tag) :
  NoDup args -> given_times args t = if key_in args t then 1 else 0.
Proof.
  intros Hnd. unfold given_times, key_in. destruct (t !! "Key") as [k|]; [|done].
  destruct (existsb (String.eqb k) args) eqn:Hin.
  - apply existsb_eqb_elem, list_elem_of_In in Hin.
    apply NoDup_ListNoDup in Hnd.
    by apply (proj1 (NoDup_count_occ' string_dec args) Hnd).
  - apply (count_occ_not_In string_dec). intros Hin'%list_elem_of_In.
    apply existsb_eqb_elem in Hin'. congruence.
Qed.

Lemma repeated_by_key_NoDup (args : list string) (xs : list tag) :
  NoDup args -> repeated_by_key args xs = List.filter (key_in args) xs.
Proof.
  intros Hnd. unfold repeated_by_key.
  induction xs as [|t xs IH]; [done|]. simpl.
  rewrite IH, (given_times_NoDup args t Hnd). by destruct (key_in args t).
Qed.

Section Include.

Variables (h : heap) (args : list string).

(** The body of the inner loop of [include_tags] and of the first loop of
    [select_tags]. *)
Let inner (t : tag) (arg : string) (_ : unit) : M heap (flow unit Empty_set) :=
  key <- getitem t "Key";;
  if String.eqb arg key then append (length h) t;; ret (Next tt)
  else ret (Next tt).

Lemma include_inner (t : tag) (k : string) (c : list tag) (rest : list string) :
  t !! "Key" = Some k ->
  for_tuple rest (inner t) tt (h ++ [c]) =
  (Return (Next tt), h ++ [c ++ replicate (count_occ string_dec rest k) t]).
Proof.
  intros Hk. revert c. induction rest as [|a rest IH]; intros c.
  { simpl. by rewrite app_nil_r. }
  rewrite for_tuple_cons. unfold bind at 1. unfold inner at 1, getitem, bind, ret.
  rewrite Hk. simpl. destruct (String.eqb_spec a k) as [->|Hne].
  - rewrite append_fresh, IH. destruct (string_dec k k); [|done].
    simpl. by rewrite <- app_assoc.
  - rewrite IH. by destruct (string_dec a k).
Qed.

Lemma include_loop (ys c : list tag) :
  Forall has_key ys ->
  for_tuple ys (fun t (_ : unit) => for_tuple args (inner t) tt) tt (h ++ [c]) =
  (Return (Next tt), h ++ [c ++ repeated_by_key args ys]).
Proof.
  revert c. induction ys as [|t ys IH]; intros c Hkeys.
  { simpl. by rewrite app_nil_r. }
  apply Forall_cons in Hkeys as [[k Hk] Hkeys].
  rewrite for_tuple_cons. unfold bind at 1.
  rewrite (include_inner t k c args Hk), IH by done.
  unfold repeated_by_key, given_times. simpl. rewrite Hk.
  by rewrite <- app_assoc.
Qed.

End Include.

Lemma include_tags_run (fuel : nat) (h : heap) (l : loc) (xs : list tag)
    (args : list string) :
  h !! l = Some xs -> Forall has_key xs -> length xs < fuel ->
  include_tags fuel l args h =
  (Return (length h), h ++ [repeated_by_key args xs]).
Proof.
  intros Hl Hkeys Hfuel. unfold include_tags.
  unfold bind at 1. unfold alloc at 1. unfold bind at 1, no_return.
  unfold bind at 1.
  rewrite (for_in_snapshot (grown h) _ l xs);
    [|by intros; eapply grown_lookup|intros; frame|by eexists|lia].
  rewrite drop_0.
  pose proof (include_loop h args xs [] Hkeys) as Hloop.
  cbv zeta in Hloop. simpl in Hloop. by rewrite Hloop.
Qed.

(** X1. On a list of tags [include_tags] returns a new list that holds each
    tag once for every argument equal to its key, in the order of the
    input; with pairwise distinct keys that is the tags whose key is given. *)
Theorem include_tags_selects_by_key (fuel : nat) (h : heap) (tag_list : loc)
    (xs : list tag) (args : list string) :
  h !! tag_list = Some xs ->
  Forall has_key xs ->
  length xs < fuel ->
  include_tags fuel tag_list args h =
    (Return (length h), h ++ [repeated_by_key args xs]) /\
  (forall t, t ∈ repeated_by_key args xs <->
     t ∈ xs /\ exists k, t !! "Key" = Some k /\ k ∈ args) /\
  (NoDup args -> repeated_by_key args xs = List.filter (key_in args) xs).
Proof.
  intros Hl Hkeys Hfuel. split; [by apply include_tags_run|].
  split; [|apply repeated_by_key_NoDup].
  intros t. unfold repeated_by_key.
  rewrite list_elem_of_In, in_flat_map. split.
  - intros (u & Hu & Hrep). apply list_elem_of_In in Hu, Hrep.
    apply elem_of_replicate in Hrep as [-> Hpos]. split; [done|].
    unfold given_times in Hpos. destruct (u !! "Key") as [k|]; [|done].
    exists k. split; [done|].
    apply list_elem_of_In, (count_occ_In string_dec). lia.
  - intros (Ht & k & Hk & Hin). exists t. split; [by apply list_elem_of_In|].
    apply list_elem_of_In, elem_of_replicate. split; [done|].
    unfold given_times. rewrite Hk.
    apply list_elem_of_In, (count_occ_In string_dec) in Hin. lia.
Qed.

Lemma include_tags_selects_by_key_witness :
  include_tags 5 0 ["a"; "a"] [sample_tags] =
    (Return 1, [sample_tags; repeated_by_key ["a"; "a"] sample_tags]) /\
  (forall t, t ∈ repeated_by_key ["a"; "a"] sample_tags <->
     t ∈ sample_tags /\ exists k, t !! "Key" = Some k /\ k ∈ ["a"; "a"]) /\
  (NoDup ["a"; "a"] ->
   repeated_by_key ["a"; "a"] sample_tags
   = List.filter (key_in ["a"; "a"]) sample_tags).
Proof.
  apply (include_tags_selects_by_key 5 [sample_tags] 0 sample_tags ["a"; "a"]).
  - reflexivity.
  - exact has_key_sample_tags.
  - simpl. lia.
Defined.

(** ** Exclusion and inclusion together *)

Lemma exclude_tags_run (fuel : nat) (h : heap) (l : loc) (xs : list tag)
    (args : list string) :
  h !! l = Some xs -> length xs < fuel ->
  exclude_tags fuel l args h =
  ending_in (length h)
    (for_tuple xs (fun tag (_ : unit) =>
       for_tuple args (fun arg (_ : unit) =>
         key <- getitem tag "Key";;
         if String.eqb arg key
         then remove (length h) tag;; ret (@Next unit Empty_set tt)
         else ret (Next tt)) tt) tt (h ++ [xs])).
Proof.
  intros Hl Hfuel. unfold exclude_tags. unfold bind at 1.
  rewrite (copy_lookup _ _ _ Hl). unfold bind at 1, no_return.
  unfold bind at 1.
  rewrite (for_in_snapshot (grown h) _ l xs);
    [|by intros; eapply grown_lookup|intros; frame|by eexists|lia].
  rewrite drop_0. unfold ending_in.
  by destruct (for_tuple xs _ tt (h ++ [xs])) as [[[[]|[]]|e|why] h'].
Qed.

Lemma filter_complement_Permutation (p : tag -> bool) (xs : list tag) :
  List.filter p xs ++ List.filter (fun t => negb (p t)) xs ≡ₚ xs.
Proof.
  induction xs as [|t xs IH]; [done|]. simpl. destruct (p t); simpl.
  - by constructor.
  - rewrite <- Permutation_middle. by constructor.
Qed.

(** X2. With pairwise distinct keys, [include_tags] and [exclude_tags]
    split a list of tags: each returns a new list, no tag is in both, and
    the two lists together hold the tags of the input, each as often as the
    input does. *)
Theorem include_exclude_split (fuel : nat) (h : heap) (tag_list : loc)
    (xs : list tag) (args : list string) :
  h !! tag_list = Some xs ->
  Forall has_key xs ->
  NoDup args ->
  length xs < fuel ->
  exists included excluded : list tag,
    include_tags fuel tag_list args h = (Return (length h), h ++ [included]) /\
    exclude_tags fuel tag_list args h = (Return (length h), h ++ [excluded]) /\
    included ++ excluded ≡ₚ xs /\
    (forall t, t ∈ included -> t ∉ excluded).
Proof.
  intros Hl Hkeys Hnd Hfuel.
  exists (List.filter (key_in args) xs),
         (List.filter (fun t => negb (key_in args t)) xs).
  split; [|split; [|split]].
  - rewrite (include_tags_run fuel h tag_list xs) by done.
    by rewrite repeated_by_key_NoDup.
  - rewrite (exclude_tags_run fuel h tag_list xs) by done.
    pose proof (exclude_loop h args Hnd xs [] Hkeys (Forall_nil_2 _)) as Hloop.
    simpl in Hloop. by rewrite Hloop.
  - apply filter_complement_Permutation.
  - intros t [_ Hin]%list_elem_of_In%filter_In [_ Hout]%list_elem_of_In%filter_In.
    rewrite Hin in Hout. done.
Qed.

Lemma include_exclude_split_witness :
  exists included excluded : list tag,
    include_tags 5 0 ["a"] [sample_tags] = (Return 1, [sample_tags; included]) /\
    exclude_tags 5 0 ["a"] [sample_tags] = (Return 1, [sample_tags; excluded]) /\
    included ++ excluded ≡ₚ sample_tags /\
    (forall t, t ∈ included -> t ∉ excluded).
Proof.
  apply (include_exclude_split 5 [sample_tags] 0 sample_tags ["a"]).
  - reflexivity.
  - exact has_key_sample_tags.
  - apply NoDup_singleton.
  - simpl. lia.
Defined.

Section ExcludeOutcome.

Variables (h : heap) (args : list string).

Let inner (t : tag) (arg : string) (_ : unit) : M heap (flow unit Empty_set) :=
  key <- getitem t "Key";;
  if String.eqb arg key then remove (length h) t;; ret (Next tt)
  else ret (Next tt).

(** On tags, the loops of [exclude_tags] end normally or in the
    [ValueError] of [remove]. *)
Lemma exclude_inner_outcome (t : tag) (k : string) (c : list tag)
    (rest : list string) :
  t !! "Key" = Some k ->
  exists c' o,
    for_tuple rest (inner t) tt (h ++ [c]) = (o, h ++ [c']) /\
    (o = Return (Next tt) \/
     o = Raise (ValueError "list.remove(x): x not in list")).
Proof.
  intros Hk. revert c. induction rest as [|a rest IH]; intros c.
  { exists c, (Return (Next tt)). split; [done|by left]. }
  rewrite for_tuple_cons. unfold bind at 1.
  unfold inner at 1, getitem, bind, ret. rewrite Hk. simpl.
  destruct (String.eqb a k); [|apply IH].
  rewrite remove_fresh. destruct (remove_first t c) as [c1|]; [apply IH|].
  exists c. eexists. split; [done|by right].
Qed.

Lemma exclude_loop_outcome (ys c : list tag) :
  Forall has_key ys ->
  exists c' o,
    for_tuple ys (fun t (_ : unit) => for_tuple args (inner t) tt) tt
      (h ++ [c]) = (o, h ++ [c']) /\
    (o = Return (Next tt) \/
     o = Raise (ValueError "list.remove(x): x not in list")).
Proof.
  revert c. induction ys as [|t ys IH]; intros c Hkeys.
  { exists c, (Return (Next tt)). split; [done|by left]. }
  apply Forall_cons in Hkeys as [[k Hk] Hkeys].
  rewrite for_tuple_cons. unfold bind at 1.
  destruct (exclude_inner_outcome t k c args Hk) as (c1 & o & -> & [-> | ->]).
  - by apply IH.
  - exists c1. eexists. split; [done|by right].
Qed.

End ExcludeOutcome.

(** X3. When the key of a tag of the list is given twice or more,
    [exclude_tags] returns nothing: a [remove] finds its tag gone and the
    call ends in [ValueError]. *)
Theorem exclude_tags_repeated_key_raises (fuel : nat) (h : heap)
    (tag_list : loc) (xs : list tag) (args : list string) (t : tag) :
  h !! tag_list = Some xs ->
  Forall has_key xs ->
  length xs < fuel ->
  t ∈ xs ->
  2 <= given_times args t ->
  exists partly : list tag,
    exclude_tags fuel tag_list args h =
    (Raise (ValueError "list.remove(x): x not in list"), h ++ [partly]).
Proof.
  intros Hl Hkeys Hfuel Ht Htwice.
  rewrite (exclude_tags_run fuel h tag_list xs) by done.
  pose proof (exclude_loop_outcome h args xs xs Hkeys) as Hout.
  cbv zeta in Hout. destruct Hout as (c' & o & Hrun & [-> | ->]).
  - exfalso. pose proof (exclude_loop_count h args xs xs (Next tt) (h ++ [c']))
      as Hcount.
    cbv zeta in Hcount. apply Hcount in Hrun as (c'' & _ & Hocc).
    specialize (Hocc t). apply occurrences_pos in Ht. nia.
  - exists c'. unfold ending_in. by rewrite Hrun.
Qed.

Lemma exclude_tags_repeated_key_raises_witness :
  exists partly : list tag,
    exclude_tags 5 0 ["b"; "a"; "b"] [sample_tags] =
    (Raise (ValueError "list.remove(x): x not in list"),
     [sample_tags] ++ [partly]).
Proof.
  apply (exclude_tags_repeated_key_raises 5 [sample_tags] 0 sample_tags
           ["b"; "a"; "b"] tag_b2).
  - reflexivity.
  - exact has_key_sample_tags.
  - simpl. lia.
  - apply list_elem_of_further, list_elem_of_here.
  - vm_compute. lia.
Defined.

(** ** More on deduplication *)

Lemma remove_duplicates_run (fuel : nat) (h : heap) (l : loc) (xs : list tag) :
  h !! l = Some xs -> Forall has_key xs -> length xs < fuel ->
  remove_duplicates fuel l h = (Return (length h), h ++ [keep_first_per_key xs]).
Proof.
  intros Hl Hkeys Hfuel. unfold remove_duplicates.
  unfold bind at 1. unfold alloc at 1.
  unfold try_except, bind at 1, no_return. unfold bind at 1.
  rewrite (for_in_snapshot (grown h) _ l xs);
    [|by intros; eapply grown_lookup|intros; frame|by eexists|lia].
  rewrite drop_0.
  destruct (dedup_loop h xs [] [] [] Hkeys) as [kl Hloop].
  { intros k. split; [by intros ?%elem_of_nil|].
    by intros (u & ?%elem_of_nil & _). }
  simpl in Hloop. by rewrite Hloop.
Qed.

Lemma keep_at_all (p : nat -> tag -> bool) (ys : list tag) (i : nat) :
  (forall j t, ys !! j = Some t -> p (i + j) t = true) ->
  keep_at p i ys = ys.
Proof.
  revert i. induction ys as [|t ys IH]; intros i Hall; simpl; [done|].
  pose proof (Hall 0 t eq_refl) as Hp. rewrite Nat.add_0_r in Hp. rewrite Hp.
  f_equal. apply IH. intros j u Hj. specialize (Hall (S j) u Hj).
  by rewrite Nat.add_succ_r in Hall.
Qed.

Lemma keep_first_per_key_unique (xs : list tag) :
  NoDup (map (fun t : tag => t !! "Key") xs) -> keep_first_per_key xs = xs.
Proof.
  intros Hnd. apply keep_at_all. intros j t Hj. simpl.
  apply first_of_its_key_spec. intros j' u Hlt Hj' Hsame.
  assert (j' = j); [|lia].
  apply (NoDup_lookup _ j' j (t !! "Key") Hnd).
  - change (map (fun t0 : tag => t0 !! "Key") xs) with
      ((fun t0 : tag => t0 !! "Key") <$> xs).
    by rewrite list_lookup_fmap, Hj', <- Hsame.
  - change (map (fun t0 : tag => t0 !! "Key") xs) with
      ((fun t0 : tag => t0 !! "Key") <$> xs).
    by rewrite list_lookup_fmap, Hj.
Qed.

Lemma keep_first_per_key_has_key (xs : list tag) :
  Forall has_key xs -> Forall has_key (keep_first_per_key xs).
Proof.
  rewrite !Forall_forall. intros Hkeys t Ht. apply Hkeys.
  eapply elem_of_sublist; [done|apply keep_at_sublist].
Qed.

(** X4. A list of tags whose keys are pairwise different comes back from
    [remove_duplicates] as a new list with the same tags in the same
    order. *)
Theorem remove_duplicates_unique_keys_copy (fuel : nat) (h : heap) (list_ : loc)
    (xs : list tag) :
  h !! list_ = Some xs ->
  Forall has_key xs ->
  NoDup (map (fun t : tag => t !! "Key") xs) ->
  length xs < fuel ->
  remove_duplicates fuel list_ h = (Return (length h), h ++ [xs]).
Proof.
  intros Hl Hkeys Hnd Hfuel.
  rewrite (remove_duplicates_run fuel h list_ xs) by done.
  by rewrite keep_first_per_key_unique.
Qed.

Lemma remove_duplicates_unique_keys_copy_witness :
  remove_duplicates 3 0 [[tag_a1; tag_b2]]
  = (Return 1, [[tag_a1; tag_b2]] ++ [[tag_a1; tag_b2]]).
Proof.
  apply (remove_duplicates_unique_keys_copy 3 [[tag_a1; tag_b2]] 0).
  - reflexivity.
  - repeat constructor; by eexists.
  - compute_done.
  - simpl. lia.
Defined.

(** X5. [remove_duplicates] is idempotent: applied to the list it returned
    for a list of tags, it returns a list with the same tags in the same
    order. *)
Theorem remove_duplicates_idempotent (fuel : nat) (h : heap) (list_ : loc)
    (xs : list tag) :
  h !! list_ = Some xs ->
  Forall has_key xs ->
  length xs < fuel ->
  exists clean : list tag,
    remove_duplicates fuel list_ h = (Return (length h), h ++ [clean]) /\
    remove_duplicates fuel (length h) (h ++ [clean])
    = (Return (S (length h)), (h ++ [clean]) ++ [clean]).
Proof.
  intros Hl Hkeys Hfuel. exists (keep_first_per_key xs).
  split; [by apply remove_duplicates_run|].
  rewrite (remove_duplicates_run fuel (h ++ [keep_first_per_key xs]) (length h)
             (keep_first_per_key xs)).
  - rewrite length_app, Nat.add_1_r.
    by rewrite (keep_first_per_key_unique _ (keep_first_keys_NoDup xs)).
  - by apply list_lookup_middle.
  - by apply keep_first_per_key_has_key.
  - pose proof (sublist_length _ _ (keep_at_sublist (first_of_its_key xs) xs 0)).
    unfold keep_first_per_key. lia.
Qed.

Lemma remove_duplicates_idempotent_witness :
  exists clean : list tag,
    remove_duplicates 5 0 [sample_tags] = (Return 1, [sample_tags] ++ [clean]) /\
    remove_duplicates 5 1 ([sample_tags] ++ [clean])
    = (Return 2, ([sample_tags] ++ [clean]) ++ [clean]).
Proof.
  apply (remove_duplicates_idempotent 5 [sample_tags] 0 sample_tags).
  - reflexivity.
  - exact has_key_sample_tags.
  - simpl. lia.
Defined.

Lemma first_without_key (xs : list tag) (d : tag) :
  d ∈ xs -> d !! "Key" = None ->
  exists pre bad suf,
    xs = pre ++ bad :: suf /\ Forall has_key pre /\ bad !! "Key" = None.
Proof.
  intros Hd Hnone. induction xs as [|t xs IH]; [by apply elem_of_nil in Hd|].
  destruct (t !! "Key") as [k|] eqn:Hk.
  - apply elem_of_cons in Hd as [->|Hd]; [congruence|].
    destruct (IH Hd) as (pre & bad & suf & -> & Hpre & Hbad).
    exists (t :: pre), bad, suf. split; [done|]. split; [|done].
    constructor; [by exists k|done].
  - exists [], t, xs. by repeat split.
Qed.

Lemma add_missing_NoDup (ys acc : list tag) :
  NoDup acc -> NoDup (add_missing ys acc).
Proof.
  revert acc. induction ys as [|t ys IH]; intros acc Hnd; [done|].
  simpl. apply IH. case_bool_decide as Hin; [done|].
  apply NoDup_app. split; [done|]. split; [|apply NoDup_singleton].
  intros x Hx ->%list_elem_of_singleton. done.
Qed.

Lemma elem_of_add_missing (ys acc : list tag) (t : tag) :
  t ∈ add_missing ys acc <-> t ∈ acc \/ t ∈ ys.
Proof.
  revert acc. induction ys as [|y ys IH]; intros acc; simpl.
  - split; [by left|]. by intros [?|?%elem_of_nil].
  - rewrite IH, elem_of_cons. case_bool_decide as Hin.
    + split; [intros [?|?]; auto|]. intros [?|[->|?]]; auto.
    + rewrite elem_of_app, list_elem_of_singleton. tauto.
Qed.

Section Fallback.

Variable h : heap.

Let keep (dict : tag) (key_list : list string)
    : M heap (flow (list string) Empty_set) :=
  key <- getitem dict "Key";;
  if negb (existsb (String.eqb key) key_list) then
    append (length h) dict;;
    key <- getitem dict "Key";;
    ret (Next (key_list ++ [key]))
  else ret (Next key_list).

(** The body of the loop in the [KeyError] handler of
    [remove_duplicates]. *)
Let again (item : tag) (_ : unit) : M heap (flow unit Empty_set) :=
  nonempty <- truthy (length h);;
  if nonempty then
    present <- contains (length h) item;;
    if negb present then append (length h) item;; ret (Next tt)
    else ret (Next tt)
  else append (length h) item;; ret (Next tt).

(** The first loop stops at the first dict without a key, with the tags
    before it deduplicated by key. *)
Lemma dedup_loop_stops (pre suf : list tag) (bad : tag) :
  Forall has_key pre -> bad !! "Key" = None ->
  for_tuple (pre ++ bad :: suf) keep [] (h ++ [[]]) =
  (Raise (KeyError "Key"), h ++ [keep_first_per_key pre]).
Proof.
  intros Hpre Hbad. rewrite for_tuple_app.
  pose proof (dedup_loop h pre [] [] [] Hpre) as Hloop. cbv zeta in Hloop.
  destruct Hloop as [kl Hloop].
  { intros k. split; [by intros ?%elem_of_nil|].
    by intros (u & ?%elem_of_nil & _). }
  simpl in Hloop. fold keep in Hloop. rewrite Hloop.
  rewrite for_tuple_cons. unfold bind at 1. unfold keep at 1, getitem, bind.
  by rewrite Hbad.
Qed.

Lemma again_loop (ys c : list tag) :
  for_tuple ys again tt (h ++ [c]) =
  (Return (Next tt), h ++ [add_missing ys c]).
Proof.
  revert c. induction ys as [|t ys IH]; intros c; [done|].
  rewrite for_tuple_cons. unfold bind at 1. unfold again at 1.
  unfold bind at 1. rewrite truthy_fresh. simpl add_missing.
  destruct c as [|c0 c].
  - rewrite bool_decide_eq_false_2 by apply not_elem_of_nil.
    unfold bind. rewrite append_fresh. unfold ret. apply IH.
  - unfold bind. rewrite contains_fresh.
    case_bool_decide as Hin; simpl.
    + apply IH.
    + rewrite append_fresh. apply IH.
Qed.

End Fallback.

(** X6. When a dict of the list has no ['Key'], [remove_duplicates] still
    returns a list and raises nothing: the handler of the [KeyError]
    compares whole dicts, so that the list returned holds every dict of the
    input exactly once — tags that share a key included. *)
Theorem remove_duplicates_missing_key_fallback (fuel : nat) (h : heap)
    (list_ : loc) (xs : list tag) (d : tag) :
  h !! list_ = Some xs ->
  d ∈ xs ->
  d !! "Key" = None ->
  length xs < fuel ->
  exists clean : list tag,
    remove_duplicates fuel list_ h = (Return (length h), h ++ [clean]) /\
    NoDup clean /\
    forall t, t ∈ clean <-> t ∈ xs.
Proof.
  intros Hl Hd Hnone Hfuel.
  destruct (first_without_key xs d Hd Hnone)
    as (pre & bad & suf & Hxs & Hpre & Hbad).
  exists (add_missing xs (keep_first_per_key pre)). split; [|split].
  - unfold remove_duplicates. unfold bind at 1. unfold alloc at 1.
    unfold try_except. unfold bind at 1, no_return. unfold bind at 1.
    rewrite (for_in_snapshot (grown h) _ list_ xs);
      [|by intros; eapply grown_lookup|intros; frame|by eexists|lia].
    rewrite drop_0.
    pose proof (dedup_loop_stops h pre suf bad Hpre Hbad) as Hstop.
    cbv zeta in Hstop. rewrite <- Hxs in Hstop. rewrite Hstop. simpl.
    unfold bind at 1, no_return. unfold bind at 1.
    rewrite (for_in_snapshot (grown h) _ list_ xs);
      [|by intros; eapply grown_lookup|intros; frame|by eexists|lia].
    rewrite drop_0.
    pose proof (again_loop h xs (keep_first_per_key pre)) as Hagain.
    cbv zeta in Hagain. by rewrite Hagain.
  - apply add_missing_NoDup.
    apply (NoDup_fmap_1 (fun t : tag => t !! "Key")).
    apply keep_first_keys_NoDup.
  - intros t. rewrite elem_of_add_missing. split; [|by right].
    intros [Hin|Hin]; [|done]. rewrite Hxs. apply elem_of_app. left.
    eapply elem_of_sublist; [done|apply keep_at_sublist].
Qed.

Lemma remove_duplicates_missing_key_fallback_witness :
  exists clean : list tag,
    remove_duplicates 5 0 [[tag_a1; tag_a3; tag_b2; dict_without_key]]
    = (Return 1, [[tag_a1; tag_a3; tag_b2; dict_without_key]] ++ [clean]) /\
    NoDup clean /\
    forall t, t ∈ clean <-> t ∈ [tag_a1; tag_a3; tag_b2; dict_without_key].
Proof.
  apply (remove_duplicates_missing_key_fallback 5
           [[tag_a1; tag_a3; tag_b2; dict_without_key]] 0
           [tag_a1; tag_a3; tag_b2; dict_without_key] dict_without_key).
  - reflexivity.
  - do 3 apply list_elem_of_further. apply list_elem_of_here.
  - reflexivity.
  - simpl. lia.
Defined.

(** ** Restricted tags *)

Lemma prefix_spec (n s : string) :
  String.prefix n s = true <-> exists b, s = n +:+ b.
Proof.
  revert s. induction n as [|c n IH]; intros s; simpl.
  - split; [by exists s|]. by destruct s.
  - destruct s as [|d s]; simpl; [split; [done|by intros [b ?]]|].
    destruct (ascii_dec c d) as [->|Hne].
    + rewrite IH. split; intros [b Hb]; exists b; [by rewrite Hb|].
      by injection Hb.
    + split; [done|]. intros [b Hb]. by injection Hb.
Qed.

(** The substring test, in terms of the text around the needle. *)
Lemma str_contains_spec (n s : string) :
  str_contains n s = true <-> exists a b, s = a +:+ n +:+ b.
Proof.
  induction s as [|d s IH]; cbn [str_contains].
  - rewrite orb_false_r, prefix_spec. split.
    + intros [b Hb]. by exists "", b.
    + intros ([|? a] & b & Hab); [by exists b|done].
  - rewrite orb_true_iff, prefix_spec, IH. split.
    + intros [[b Hb] | (a & b & Hab)]; [by exists "", b|].
      exists (String d a), b. simpl. by rewrite Hab.
    + intros ([|c a] & b & Hab); [left; by exists b|].
      right. exists a, b. by injection Hab.
Qed.

Section Restricted.

Variable h : heap.

(** The body of the loop of [remove_restricted]. *)
Let keep (dict : tag) (_ : unit) : M heap (flow unit Empty_set) :=
  key <- getitem dict "Key";;
  if negb (str_contains "aws" key) then append (length h) dict;; ret (Next tt)
  else ret (Next tt).

Lemma restricted_loop (ys c : list tag) :
  Forall has_key ys ->
  for_tuple ys keep tt (h ++ [c]) =
  (Return (Next tt),
   h ++ [c ++ List.filter (fun t => negb (aws_in_key t)) ys]).
Proof.
  revert c. induction ys as [|t ys IH]; intros c Hkeys.
  { simpl. by rewrite app_nil_r. }
  apply Forall_cons in Hkeys as [[k Hk] Hkeys].
  rewrite for_tuple_cons. unfold bind at 1. unfold keep at 1, getitem, bind, ret.
  simpl. unfold aws_in_key at 1. rewrite Hk.
  destruct (str_contains "aws" k); simpl.
  - by apply IH.
  - rewrite append_fresh, IH by done. by rewrite <- app_assoc.
Qed.

Lemma restricted_loop_stops (pre suf : list tag) (bad : tag) :
  Forall has_key pre -> bad !! "Key" = None ->
  for_tuple (pre ++ bad :: suf) keep tt (h ++ [[]]) =
  (Raise (KeyError "Key"),
   h ++ [List.filter (fun t => negb (aws_in_key t)) pre]).
Proof.
  intros Hpre Hbad. rewrite for_tuple_app, restricted_loop by done.
  rewrite for_tuple_cons. unfold bind at 1. unfold keep at 1, getitem, bind.
  by rewrite Hbad.
Qed.

End Restricted.

(** X7. On a list of tags [remove_restricted] returns a new list: the tags
    whose key does not hold the text [aws] anywhere, in the order of the
    input. *)
Theorem remove_restricted_drops_aws_keys (fuel : nat) (h : heap) (list_ : loc)
    (xs : list tag) :
  h !! list_ = Some xs ->
  Forall has_key xs ->
  length xs < fuel ->
  exists clean : list tag,
    remove_restricted fuel list_ h = (Return (inl (length h)), h ++ [clean]) /\
    clean = List.filter (fun t => negb (aws_in_key t)) xs /\
    forall t, t ∈ clean <->
      t ∈ xs /\
      forall k, t !! "Key" = Some k -> ~ exists a b, k = a +:+ "aws" +:+ b.
Proof.
  intros Hl Hkeys Hfuel. eexists. split; [|split; [reflexivity|]].
  - unfold remove_restricted. unfold bind at 1. unfold alloc at 1.
    unfold try_except. unfold bind at 1, no_return. unfold bind at 1.
    rewrite (for_in_snapshot (grown h) _ list_ xs);
      [|by intros; eapply grown_lookup|intros; frame|by eexists|lia].
    rewrite drop_0.
    pose proof (restricted_loop h xs [] Hkeys) as Hloop. cbv zeta in Hloop.
    simpl in Hloop. by rewrite Hloop.
  - intros t. rewrite list_elem_of_In, filter_In, <- list_elem_of_In.
    rewrite negb_true_iff. unfold aws_in_key. split.
    + intros [Hin Haws]. split; [done|]. intros k Hk Hsub. rewrite Hk in Haws.
      apply str_contains_spec in Hsub. congruence.
    + intros [Hin Hfree]. split; [done|].
      destruct (t !! "Key") as [k|]; [|done].
      apply not_true_iff_false. rewrite str_contains_spec. by apply Hfree.
Qed.

Lemma remove_restricted_drops_aws_keys_witness :
  exists clean : list tag,
    remove_restricted 5 0 [[tag_a1; tag_colon; tag_b2]]
    = (Return (inl 1), [[tag_a1; tag_colon; tag_b2]] ++ [clean]) /\
    clean = List.filter (fun t => negb (aws_in_key t)) [tag_a1; tag_colon; tag_b2] /\
    forall t, t ∈ clean <->
      t ∈ [tag_a1; tag_colon; tag_b2] /\
      forall k, t !! "Key" = Some k -> ~ exists a b, k = a +:+ "aws" +:+ b.
Proof.
  apply (remove_restricted_drops_aws_keys 5 [[tag_a1; tag_colon; tag_b2]] 0).
  - reflexivity.
  - repeat constructor; by eexists.
  - simpl. lia.
Defined.

(** X8. When a dict of the list has no ['Key'], [remove_restricted] raises
    nothing and returns the integer [-1] instead of a list; the caller's
    list is as it was. *)
Theorem remove_restricted_missing_key (fuel : nat) (h : heap) (list_ : loc)
    (xs : list tag) (d : tag) :
  h !! list_ = Some xs ->
  d ∈ xs ->
  d !! "Key" = None ->
  length xs < fuel ->
  exists (partly : list tag) (h' : heap),
    remove_restricted fuel list_ h = (Return (inr (-1)%Z), h') /\
    h' = h ++ [partly] /\
    h' !! list_ = Some xs.
Proof.
  intros Hl Hd Hnone Hfuel.
  destruct (first_without_key xs d Hd Hnone)
    as (pre & bad & suf & Hxs & Hpre & Hbad).
  do 2 eexists. split; [|split; [reflexivity|by apply lookup_app_l_Some]].
  unfold remove_restricted. unfold bind at 1. unfold alloc at 1.
  unfold try_except. unfold bind at 1, no_return. unfold bind at 1.
  rewrite (for_in_snapshot (grown h) _ list_ xs);
    [|by intros; eapply grown_lookup|intros; frame|by eexists|lia].
  rewrite drop_0.
  pose proof (restricted_loop_stops h pre suf bad Hpre Hbad) as Hstop.
  cbv zeta in Hstop. rewrite <- Hxs in Hstop. by rewrite Hstop.
Qed.

Lemma remove_restricted_missing_key_witness :
  exists (partly : list tag) (h' : heap),
    remove_restricted 5 0 [[tag_a1; dict_without_key; tag_b2]]
    = (Return (inr (-1)%Z), h') /\
    h' = [[tag_a1; dict_without_key; tag_b2]] ++ [partly] /\
    h' !! 0 = Some [tag_a1; dict_without_key; tag_b2].
Proof.
  apply (remove_restricted_missing_key 5 [[tag_a1; dict_without_key; tag_b2]] 0
           [tag_a1; dict_without_key; tag_b2] dict_without_key).
  - reflexivity.
  - apply list_elem_of_further, list_elem_of_here.
  - reflexivity.
  - simpl. lia.
Defined.

(** ** Selection *)

Lemma normalize_new_tag (t : tag) (k v : string) :
  t !! "Key" = Some k -> t !! "Value" = Some v -> normalize t = new_tag k v.
Proof. intros Hk Hv. unfold normalize. by rewrite Hk, Hv. Qed.

Lemma normalize_loop (ys acc : list tag) (h : heap) :
  Forall is_tag ys ->
  for_tuple ys (fun x acc =>
      k <- getitem x "Key";;
      v <- getitem x "Value";;
      ret (@Next _ Empty_set (acc ++ [new_tag k v]))) acc h =
  (Return (Next (acc ++ map normalize ys)), h).
Proof.
  revert acc. induction ys as [|t ys IH]; intros acc Htags.
  { simpl. by rewrite app_nil_r. }
  apply Forall_cons in Htags as [[[k Hk] [v Hv]] Htags].
  rewrite for_tuple_cons. unfold bind at 1. unfold getitem, bind, ret.
  rewrite Hk, Hv, IH by done. simpl.
  by rewrite (normalize_new_tag t k v), <- app_assoc.
Qed.

Lemma is_tag_has_key (xs : list tag) : Forall is_tag xs -> Forall has_key xs.
Proof. intros Htags. eapply Forall_impl; [done|]. by intros t [? _]. Qed.

Lemma elem_of_repeated_by_key (args : list string) (xs : list tag) (t : tag) :
  t ∈ repeated_by_key args xs -> t ∈ xs /\ 0 < given_times args t.
Proof.
  unfold repeated_by_key. rewrite list_elem_of_In, in_flat_map.
  intros (u & Hu & Hrep). apply list_elem_of_In in Hu, Hrep.
  apply elem_of_replicate in Hrep as [-> Hpos]. split; [done|lia].
Qed.

(** X9. [select_tags] returns what [include_tags] returns for the same
    keys, each tag reduced to its ['Key'] and ['Value']: any other attribute
    of a selected tag is dropped, and every tag returned has one of the
    keys asked for. *)
Theorem select_tags_is_normalized_include (fuel : nat) (h : heap)
    (tag_list : loc) (xs : list tag) (key_list : list string) :
  h !! tag_list = Some xs ->
  Forall is_tag xs ->
  length xs < fuel ->
  length (repeated_by_key key_list xs) < fuel ->
  exists included : list tag,
    include_tags fuel tag_list key_list h
      = (Return (length h), h ++ [included]) /\
    select_tags fuel tag_list key_list h
      = (Return (S (length h)), h ++ [included; map normalize included]) /\
    forall u, u ∈ map normalize included ->
      exists k v, u = new_tag k v /\ k ∈ key_list.
Proof.
  intros Hl Htags Hfuel Hfuel'. exists (repeated_by_key key_list xs).
  pose proof (is_tag_has_key xs Htags) as Hkeys.
  assert (Forall is_tag (repeated_by_key key_list xs)) as Hsel.
  { rewrite Forall_forall in Htags. apply Forall_forall. intros t Ht.
    by apply Htags, (elem_of_repeated_by_key key_list). }
  split; [by apply include_tags_run|]. split.
  - unfold select_tags. unfold bind at 1. unfold alloc at 1.
    unfold bind at 1, no_return. unfold bind at 1.
    rewrite (for_in_snapshot (grown h) _ tag_list xs);
      [|by intros; eapply grown_lookup|intros; frame|by eexists|lia].
    rewrite drop_0.
    pose proof (include_loop h key_list xs [] Hkeys) as Hloop.
    cbv zeta in Hloop. rewrite Hloop. simpl app.
    unfold ret at 1. unfold bind at 1 2.
    rewrite (for_in_snapshot
               (fun h' => h' = h ++ [repeated_by_key key_list xs]) _
               (length h) (repeated_by_key key_list xs));
      [|by intros ? ->; apply list_lookup_middle|intros; frame|done|lia].
    rewrite drop_0, normalize_loop by done.
    unfold ret at 1. unfold bind at 1, alloc, ret.
    rewrite length_app, Nat.add_1_r, <- app_assoc. done.
  - intros u (t & -> & Ht)%list_elem_of_fmap.
    apply elem_of_repeated_by_key in Ht as [Ht Hpos].
    rewrite Forall_forall in Htags.
    destruct (Htags t Ht) as [[k Hk] [v Hv]]. exists k, v.
    split; [by apply normalize_new_tag|].
    unfold given_times in Hpos. rewrite Hk in Hpos.
    by apply list_elem_of_In, (count_occ_In string_dec).
Qed.

Lemma select_tags_is_normalized_include_witness :
  exists included : list tag,
    include_tags 5 0 ["a"] [[tag_with_owner; tag_b2; tag_a3]]
      = (Return 1, [[tag_with_owner; tag_b2; tag_a3]] ++ [included]) /\
    select_tags 5 0 ["a"] [[tag_with_owner; tag_b2; tag_a3]]
      = (Return 2, [[tag_with_owner; tag_b2; tag_a3]]
                   ++ [included; map normalize included]) /\
    forall u, u ∈ map normalize included ->
      exists k v, u = new_tag k v /\ k ∈ ["a"].
Proof.
  apply (select_tags_is_normalized_include 5 [[tag_with_owner; tag_b2; tag_a3]]
           0 [tag_with_owner; tag_b2; tag_a3] ["a"]).
  - reflexivity.
  - repeat constructor; by eexists.
  - simpl. lia.
  - vm_compute. lia.
Defined.

(** ** Dicts of tags *)

Lemma odict_set_keys (k v : string) (d : list (string * string)) :
  (odict_set k v d).*1 = if bool_decide (k ∈ d.*1) then d.*1 else d.*1 ++ [k].
Proof.
  induction d as [|[k' v'] d IH]; [done|]. cbn [odict_set].
  destruct (String.eqb_spec k k') as [->|Hne]; rewrite !fmap_cons; cbn [fst].
  - by rewrite bool_decide_eq_true_2 by apply list_elem_of_here.
  - rewrite IH. destruct (decide (k ∈ d.*1)) as [Hin|Hin].
    + rewrite !bool_decide_eq_true_2; [done|by apply list_elem_of_further|done].
    + rewrite !bool_decide_eq_false_2; [done| |done].
      by intros [?|?]%elem_of_cons.
Qed.

Lemma odict_set_NoDup (k v : string) (d : list (string * string)) :
  NoDup d.*1 -> NoDup (odict_set k v d).*1.
Proof.
  intros Hnd. rewrite odict_set_keys. case_bool_decide as Hin; [done|].
  apply NoDup_app. split; [done|]. split; [|apply NoDup_singleton].
  by intros x Hx ->%list_elem_of_singleton.
Qed.

Lemma elem_of_odict_set_keys (k v x : string) (d : list (string * string)) :
  x ∈ (odict_set k v d).*1 <-> x ∈ d.*1 \/ x = k.
Proof.
  rewrite odict_set_keys. case_bool_decide as Hin.
  - split; [by left|]. by intros [?| ->].
  - by rewrite elem_of_app, list_elem_of_singleton.
Qed.

(** On a dict that already has its keys in place, with a value to replace
    only where the key is new, nothing changes. *)
Lemma odict_set_fresh (k v : string) (d : list (string * string)) :
  k ∉ d.*1 -> odict_set k v d = d ++ [(k, v)].
Proof.
  induction d as [|[k' v'] d IH]; intros Hk; [done|]. cbn [odict_set].
  rewrite fmap_cons in Hk. apply not_elem_of_cons in Hk as [Hne Hk].
  cbn [fst] in Hne.
  destruct (String.eqb_spec k k') as [|_]; [done|]. by rewrite IH.
Qed.

Lemma entries_loop (ys : list tag) (d : list (string * string)) (h : heap) :
  Forall is_tag ys ->
  for_tuple ys (fun x d =>
      k <- getitem x "Key";;
      v <- getitem x "Value";;
      ret (@Next _ Empty_set (odict_set k v d))) d h =
  (Return (Next (fold_left (fun d t =>
     match t !! "Key", t !! "Value" with
     | Some k, Some v => odict_set k v d
     | _, _ => d
     end) ys d)), h).
Proof.
  revert d. induction ys as [|t ys IH]; intros d Htags; [done|].
  apply Forall_cons in Htags as [[[k Hk] [v Hv]] Htags].
  rewrite for_tuple_cons. unfold bind at 1. unfold getitem, bind, ret.
  rewrite Hk, Hv, IH by done. simpl. by rewrite Hk, Hv.
Qed.

Lemma dict_of_tags_run (fuel : nat) (h : heap) (l : loc) (xs : list tag) :
  h !! l = Some xs -> Forall is_tag xs -> length xs < fuel ->
  dict_of_tags fuel l h = (Return (entries xs), h).
Proof.
  intros Hl Htags Hfuel. unfold dict_of_tags, no_return. unfold bind at 1.
  rewrite (for_in_snapshot (fun h' => h' = h) _ l xs);
    [|by intros ? ->|intros; frame|done|lia].
  by rewrite drop_0, entries_loop.
Qed.

Lemma entries_keys_gen (ys : list tag) (d : list (string * string)) :
  Forall is_tag ys -> NoDup d.*1 ->
  let d' := fold_left (fun d t =>
     match t !! "Key", t !! "Value" with
     | Some k, Some v => odict_set k v d
     | _, _ => d
     end) ys d in
  NoDup d'.*1 /\
  forall k, k ∈ d'.*1 <-> k ∈ d.*1 \/ exists t, t ∈ ys /\ t !! "Key" = Some k.
Proof.
  revert d. induction ys as [|t ys IH]; intros d Htags Hnd; simpl.
  { split; [done|]. intros k. split; [by left|].
    by intros [?|(t & ?%elem_of_nil & _)]. }
  apply Forall_cons in Htags as [[[k Hk] [v Hv]] Htags]. rewrite Hk, Hv.
  destruct (IH (odict_set k v d) Htags (odict_set_NoDup k v d Hnd))
    as [Hnd' Hmem].
  split; [done|]. intros x. rewrite Hmem, elem_of_odict_set_keys.
  setoid_rewrite elem_of_cons. split.
  - intros [[?| ->]|(u & ? & ?)]; [by left|right; by exists t; auto|].
    right. exists u. auto.
  - intros [?|(u & [->|?] & Hu)]; [by left; left| |right; by exists u].
    left. right. congruence.
Qed.

Lemma entries_NoDup (xs : list tag) : Forall is_tag xs -> NoDup (entries xs).*1.
Proof.
  intros Htags.
  by destruct (entries_keys_gen xs [] Htags (NoDup_nil_2 (A:=string))).
Qed.

Lemma elem_of_entries_keys (xs : list tag) (k : string) :
  Forall is_tag xs ->
  k ∈ (entries xs).*1 <-> exists t, t ∈ xs /\ t !! "Key" = Some k.
Proof.
  intros Htags.
  destruct (entries_keys_gen xs [] Htags (NoDup_nil_2 (A:=string)))
    as [_ Hmem].
  unfold entries. rewrite Hmem. split; [|by right].
  by intros [?%elem_of_nil|?].
Qed.

Lemma odict_without_absent (a : string) (r : list (string * string)) :
  a ∉ r.*1 -> odict_without a r = r.
Proof.
  induction r as [|[k v] r IH]; intros Ha; [done|].
  rewrite fmap_cons in Ha. apply not_elem_of_cons in Ha as [Hne Ha].
  cbn [fst] in Hne. unfold odict_without. cbn [List.filter fst].
  destruct (String.eqb_spec a k) as [|_]; [done|]. simpl. f_equal. by apply IH.
Qed.

Lemma elem_of_odict_without (a : string) (r : list (string * string))
    (e : string * string) :
  e ∈ odict_without a r <-> e ∈ r /\ e.1 <> a.
Proof.
  unfold odict_without. rewrite list_elem_of_In, filter_In, <- list_elem_of_In.
  rewrite negb_true_iff. destruct (String.eqb_spec a e.1) as [->|Hne].
  - split; [by intros [_ ?]|by intros [_ ?]].
  - split; intros [? _]; split; congruence.
Qed.

Lemma odict_without_NoDup (a : string) (r : list (string * string)) :
  NoDup r.*1 -> NoDup (odict_without a r).*1.
Proof.
  induction r as [|[k v] r IH]; [done|]. rewrite fmap_cons.
  intros [Hk Hnd]%NoDup_cons. unfold odict_without. cbn [List.filter fst].
  destruct (negb (String.eqb a k)); [|by apply IH].
  rewrite fmap_cons. apply NoDup_cons. split; [|by apply IH].
  intros (e & He & Hin)%list_elem_of_fmap. apply Hk.
  apply elem_of_odict_without in Hin as [Hin _].
  apply list_elem_of_fmap. by exists e.
Qed.

Lemma odict_without_idemp (a : string) (r : list (string * string)) :
  odict_without a (odict_without a r) = odict_without a r.
Proof.
  induction r as [|[k v] r IH]; [done|]. unfold odict_without in *.
  cbn [List.filter fst]. destruct (negb (String.eqb a k)) eqn:Hne; [|done].
  cbn [List.filter fst]. by rewrite Hne, IH.
Qed.

Lemma odict_pop_None (a : string) (r : list (string * string)) :
  odict_pop a r = None -> odict_without a r = r.
Proof.
  induction r as [|[k v] r IH]; [done|]. cbn [odict_pop].
  unfold odict_without. cbn [List.filter fst].
  destruct (String.eqb a k); [done|].
  destruct (odict_pop a r) as [[v' r']|]; [done|]. intros _. simpl.
  f_equal. by apply IH.
Qed.

Lemma odict_pop_Some (a v : string) (r r' : list (string * string)) :
  NoDup r.*1 -> odict_pop a r = Some (v, r') -> r' = odict_without a r.
Proof.
  revert r'. induction r as [|[k w] r IH]; intros r'; [done|].
  rewrite fmap_cons. intros [Hk Hnd]%NoDup_cons. cbn [odict_pop fst] in *.
  unfold odict_without. cbn [List.filter fst].
  destruct (String.eqb_spec a k) as [->|Hne]; simpl.
  - intros [= _ <-]. change (r = odict_without k r).
    by rewrite odict_without_absent.
  - destruct (odict_pop a r) as [[v' r1]|]; simpl; [|done].
    intros [= -> <-]. f_equal. by apply IH.
Qed.

Lemma tag_of_inj (e e' : string * string) : tag_of e = tag_of e' -> e = e'.
Proof.
  destruct e as [k v], e' as [k' v']. unfold tag_of, new_tag. simpl.
  intros Heq.
  assert (Some k = Some k') as [= ->].
  { rewrite <- (lookup_insert_eq (<["Value":=v]> ∅) "Key" k), Heq.
    by rewrite lookup_insert_eq. }
  assert (Some v = Some v') as [= ->]; [|done].
  rewrite <- (lookup_insert_eq (∅ : tag) "Value" v).
  rewrite <- (lookup_insert_ne (<["Value":=v]> ∅) "Key" "Value" k') by done.
  rewrite Heq, lookup_insert_ne by done. by rewrite lookup_insert_eq.
Qed.

Section DivideAll.

Variables (h : heap) (rest : heap).

Let entry (key : string) : string * string -> list (string * string) ->
    M heap (flow (list (string * string)) Empty_set) :=
  fun '(k', v') residual =>
    try_except
      (if String.eqb key k' then
         append (length h) (new_tag k' v');;
         ret (Next residual)
       else
         match odict_pop key residual with
         | Some (_, residual') => ret (Next residual')
         | None => raise (KeyError key)
         end)
      is_KeyError
      (fun _ => ret (Next residual)).

(** One argument against the entries [es] of [tag_dict]: every entry with
    the argument's key goes to the matching list, and the argument is
    popped from the residual dict as soon as an entry has another key. *)
Lemma divide_inner (a : string) (es r : list (string * string))
    (m : list tag) :
  NoDup r.*1 ->
  for_tuple es (entry a) r (h ++ m :: rest) =
  (Return (Next (if has_other_key a es then odict_without a r else r)),
   h ++ (m ++ map tag_of (List.filter (fun e => String.eqb a e.1) es)) :: rest).
Proof.
  revert r m. induction es as [|[k v] es IH]; intros r m Hnd.
  { simpl. by rewrite app_nil_r. }
  rewrite for_tuple_cons. unfold bind at 1. unfold entry at 1, try_except.
  unfold has_other_key. cbn [existsb List.filter fst].
  destruct (String.eqb_spec a k) as [->|Hne]; simpl negb.
  - unfold bind at 1. rewrite append_middle. unfold ret at 1. cbn beta iota.
    rewrite IH by done. cbn [map]. unfold tag_of at 2. simpl.
    by rewrite <- app_assoc.
  - destruct (odict_pop a r) as [[v' r']|] eqn:Hpop; simpl.
    + apply (odict_pop_Some a v' r r' Hnd) in Hpop as ->.
      rewrite IH by by apply odict_without_NoDup.
      rewrite odict_without_idemp. by destruct (has_other_key a es).
    + apply odict_pop_None in Hpop. rewrite IH by done.
      rewrite Hpop. by destruct (has_other_key a es).
Qed.

Lemma divide_outer (args : list string) (d r : list (string * string))
    (m : list tag) :
  NoDup r.*1 ->
  for_tuple args (fun key residual => for_tuple d (entry key) residual) r
    (h ++ m :: rest) =
  (Return (Next (fold_left
     (fun r a => if has_other_key a d then odict_without a r else r) args r)),
   h ++ (m ++ matching_of args d) :: rest).
Proof.
  revert r m. induction args as [|a args IH]; intros r m Hnd.
  { simpl. by rewrite app_nil_r. }
  rewrite for_tuple_cons. unfold bind at 1. rewrite divide_inner by done.
  rewrite IH.
  - simpl. by rewrite <- app_assoc.
  - destruct (has_other_key a d); [by apply odict_without_NoDup|done].
Qed.

End DivideAll.

Lemma divide_tags_run (fuel : nat) (h : heap) (l : loc) (xs : list tag)
    (args : list string) :
  h !! l = Some xs -> Forall is_tag xs -> length xs < fuel ->
  divide_tags fuel l args h =
  (Return (length h, length h + 2),
   h ++ [matching_of args (entries xs); xs;
         map tag_of (residual_of args (entries xs))]).
Proof.
  intros Hl Htags Hfuel. unfold divide_tags.
  unfold bind at 1. unfold alloc at 1.
  unfold bind at 1. rewrite (copy_lookup _ l xs) by (by apply lookup_app_l_Some).
  rewrite length_app. simpl length.
  unfold bind at 1.
  rewrite (dict_of_tags_run fuel _ (length h + 1) xs); try done;
    [|by apply list_lookup_middle; rewrite length_app].
  unfold bind at 1.
  rewrite (dict_of_tags_run fuel _ l xs); try done;
    [|by rewrite <- app_assoc; apply lookup_app_l_Some].
  unfold bind at 1, no_return. unfold bind at 1.
  rewrite <- app_assoc. simpl app.
  pose proof (divide_outer h [xs] args (entries xs) (entries xs) []
                (entries_NoDup xs Htags)) as Hloop.
  cbv beta zeta in Hloop. rewrite Hloop. clear Hloop.
  unfold ret at 1. unfold bind at 1, alloc at 1. unfold ret.
  rewrite length_app. simpl.
  rewrite <- app_assoc. simpl.
  assert (forall d : list (string * string),
            map (fun '(k, v) => new_tag k v) d = map tag_of d) as Hmap.
  { intros d. apply map_ext. by intros [k v]. }
  by rewrite Hmap.
Qed.

Lemma has_other_key_two (d : list (string * string)) (k1 k2 a : string) :
  k1 ∈ d.*1 -> k2 ∈ d.*1 -> k1 <> k2 -> has_other_key a d = true.
Proof.
  intros (e1 & -> & H1)%list_elem_of_fmap (e2 & -> & H2)%list_elem_of_fmap Hne.
  unfold has_other_key. apply existsb_exists.
  destruct (String.eqb_spec a e1.1) as [->|Hne1].
  - exists e2. split; [by apply list_elem_of_In|].
    apply negb_true_iff, String.eqb_neq. done.
  - exists e1. split; [by apply list_elem_of_In|].
    by apply negb_true_iff, String.eqb_neq.
Qed.

Lemma elem_of_residual_of (args : list string) (d r : list (string * string))
    (e : string * string) :
  (forall a, has_other_key a d = true) ->
  e ∈ fold_left (fun r a => if has_other_key a d then odict_without a r else r)
        args r <->
  e ∈ r /\ e.1 ∉ args.
Proof.
  intros Hother. revert r. induction args as [|a args IH]; intros r; simpl.
  - split; [intros ?; split; [done|apply not_elem_of_nil]|by intros [? _]].
  - rewrite IH, Hother, elem_of_odict_without, not_elem_of_cons. tauto.
Qed.

Lemma elem_of_matching_of (args : list string) (d : list (string * string))
    (u : tag) :
  u ∈ matching_of args d <-> exists e, e ∈ d /\ e.1 ∈ args /\ u = tag_of e.
Proof.
  unfold matching_of. rewrite list_elem_of_In, in_flat_map. split.
  - intros (a & Ha & Hu). apply in_map_iff in Hu as (e & <- & He).
    apply filter_In in He as [He Heq]. apply String.eqb_eq in Heq as ->.
    exists e. split; [by apply list_elem_of_In|].
    split; [by apply list_elem_of_In|done].
  - intros (e & He & Ha & ->). exists e.1. split; [by apply list_elem_of_In|].
    apply in_map, filter_In. split; [by apply list_elem_of_In|].
    by apply String.eqb_eq.
Qed.

(** X10. On a list of tags with at least two different keys, [divide_tags]
    splits the dict of the list by the given keys: an entry is in the
    matching list exactly when its key is given, in the residual list
    exactly when it is not, and the two lists hold nothing else. *)
Theorem divide_tags_splits_by_key (fuel : nat) (h : heap) (tag_list : loc)
    (xs : list tag) (args : list string) (t1 t2 : tag) :
  h !! tag_list = Some xs ->
  Forall is_tag xs ->
  length xs < fuel ->
  t1 ∈ xs -> t2 ∈ xs -> t1 !! "Key" <> t2 !! "Key" ->
  exists matching residual : list tag,
    divide_tags fuel tag_list args h =
      (Return (length h, length h + 2), h ++ [matching; xs; residual]) /\
    (forall e, e ∈ entries xs ->
       (tag_of e ∈ matching <-> e.1 ∈ args) /\
       (tag_of e ∈ residual <-> e.1 ∉ args)) /\
    (forall u, u ∈ matching \/ u ∈ residual ->
       exists e, e ∈ entries xs /\ u = tag_of e).
Proof.
  intros Hl Htags Hfuel Ht1 Ht2 Hne.
  exists (matching_of args (entries xs)),
         (map tag_of (residual_of args (entries xs))).
  split; [by apply divide_tags_run|].
  assert (forall a, has_other_key a (entries xs) = true) as Hother.
  { rewrite Forall_forall in Htags.
    destruct (Htags t1 Ht1) as [[k1 Hk1] _], (Htags t2 Ht2) as [[k2 Hk2] _].
    intros a. apply (has_other_key_two _ k1 k2).
    - apply elem_of_entries_keys; [by apply Forall_forall|]. by exists t1.
    - apply elem_of_entries_keys; [by apply Forall_forall|]. by exists t2.
    - congruence. }
  split.
  - intros e He. split.
    + rewrite elem_of_matching_of. split.
      * by intros (e' & _ & Ha & <-%tag_of_inj).
      * intros Ha. by exists e.
    + unfold residual_of. split.
      * intros (e' & <-%tag_of_inj & Hin)%list_elem_of_fmap.
        by apply (elem_of_residual_of args (entries xs)) in Hin as [_ ?].
      * intros Ha. apply list_elem_of_fmap. exists e. split; [done|].
        by apply elem_of_residual_of.
  - intros u [Hu|Hu].
    + apply elem_of_matching_of in Hu as (e & He & _ & ->). by exists e.
    + apply list_elem_of_fmap in Hu as (e & -> & Hin). exists e. split; [|done].
      by apply (elem_of_residual_of args (entries xs)) in Hin as [? _].
Qed.

Lemma divide_tags_splits_by_key_witness :
  exists matching residual : list tag,
    divide_tags 5 0 ["a"] [[tag_a1; tag_b2; tag_a3]] =
      (Return (1, 1 + 2),
       [[tag_a1; tag_b2; tag_a3]] ++ [matching; [tag_a1; tag_b2; tag_a3]; residual]) /\
    (forall e, e ∈ entries [tag_a1; tag_b2; tag_a3] ->
       (tag_of e ∈ matching <-> e.1 ∈ ["a"]) /\
       (tag_of e ∈ residual <-> e.1 ∉ ["a"])) /\
    (forall u, u ∈ matching \/ u ∈ residual ->
       exists e, e ∈ entries [tag_a1; tag_b2; tag_a3] /\ u = tag_of e).
Proof.
  apply (divide_tags_splits_by_key 5 [[tag_a1; tag_b2; tag_a3]] 0
           [tag_a1; tag_b2; tag_a3] ["a"] tag_a1 tag_b2).
  - reflexivity.
  - repeat constructor; by eexists.
  - simpl. lia.
  - apply list_elem_of_here.
  - apply list_elem_of_further, list_elem_of_here.
  - vm_compute. discriminate.
Defined.

(** ** Tag lists from dicts *)

Lemma create_taglist_loop (h : heap) (d : list (string * string))
    (c : list tag) :
  for_tuple d (fun '(k, v) (_ : unit) =>
      let temp : tag := ∅ in
      let temp := <["Key" := k]> temp in
      let temp := <["Value" := v]> temp in
      append (length h) temp;;
      ret (@Next unit Empty_set tt)) tt (h ++ [c]) =
  (Return (Next tt), h ++ [c ++ map tag_of d]).
Proof.
  revert c. induction d as [|[k v] d IH]; intros c.
  { simpl. by rewrite app_nil_r. }
  rewrite for_tuple_cons. unfold bind at 1. cbv zeta. unfold bind at 1.
  rewrite append_fresh. unfold ret at 1. cbn beta iota. rewrite IH.
  cbn [map]. unfold tag_of at 2, new_tag. cbn [fst snd].
  rewrite (insert_insert_ne (∅ : tag) "Value" "Key") by done.
  by rewrite <- app_assoc.
Qed.

Lemma create_taglist_run (h : heap) (d : list (string * string)) :
  create_taglist d h = (Return (length h), h ++ [map tag_of d]).
Proof.
  unfold create_taglist. unfold bind at 1. unfold alloc at 1.
  unfold bind at 1, no_return. unfold bind at 1.
  pose proof (create_taglist_loop h d []) as Hloop. cbv zeta in Hloop.
  by rewrite Hloop.
Qed.

Lemma tag_of_key (e : string * string) : tag_of e !! "Key" = Some e.1.
Proof. apply lookup_insert_eq. Qed.

Lemma tag_of_value (e : string * string) : tag_of e !! "Value" = Some e.2.
Proof. unfold tag_of, new_tag. by rewrite lookup_insert_ne, lookup_insert_eq. Qed.

Lemma entries_of_tags_gen (ys acc : list (string * string)) :
  NoDup (acc ++ ys).*1 ->
  fold_left (fun d t =>
     match t !! "Key", t !! "Value" with
     | Some k, Some v => odict_set k v d
     | _, _ => d
     end) (map tag_of ys) acc = acc ++ ys.
Proof.
  revert acc. induction ys as [|[k v] ys IH]; intros acc Hnd.
  { simpl. by rewrite app_nil_r. }
  cbn [map fold_left]. rewrite tag_of_key, tag_of_value. cbn [fst snd].
  rewrite odict_set_fresh.
  - rewrite IH; rewrite <- app_assoc; done.
  - rewrite fmap_app, fmap_cons in Hnd. apply NoDup_app in Hnd as (_ & Hdisj & _).
    intros Hin. apply (Hdisj k Hin). apply list_elem_of_here.
Qed.

Lemma is_tag_tag_of (d : list (string * string)) : Forall is_tag (map tag_of d).
Proof.
  apply Forall_forall. intros t (e & -> & _)%list_elem_of_fmap.
  split; [exists e.1; apply tag_of_key|exists e.2; apply tag_of_value].
Qed.

(** X11. [create_taglist] turns a dict into a new list with one tag for
    each entry, in the order of the dict; divided by no key, that list
    comes back whole as the residual list, with nothing matching. *)
Theorem create_taglist_then_divide (fuel : nat) (h : heap)
    (d : list (string * string)) :
  NoDup d.*1 ->
  length d < fuel ->
  exists tags : list tag,
    create_taglist d h = (Return (length h), h ++ [tags]) /\
    tags = map tag_of d /\
    divide_tags fuel (length h) [] (h ++ [tags]) =
      (Return (S (length h), S (length h) + 2),
       (h ++ [tags]) ++ [[]; tags; tags]).
Proof.
  intros Hnd Hfuel. exists (map tag_of d).
  split; [apply create_taglist_run|]. split; [done|].
  rewrite (divide_tags_run fuel (h ++ [map tag_of d]) (length h) (map tag_of d)).
  - rewrite length_app, Nat.add_1_r. unfold entries.
    by rewrite (entries_of_tags_gen d []).
  - by apply list_lookup_middle.
  - apply is_tag_tag_of.
  - by rewrite length_map.
Qed.

Lemma create_taglist_then_divide_witness :
  exists tags : list tag,
    create_taglist [("env", "prod"); ("team", "ops")] []
      = (Return 0, [] ++ [tags]) /\
    tags = map tag_of [("env", "prod"); ("team", "ops")] /\
    divide_tags 3 0 [] ([] ++ [tags]) =
      (Return (1, 1 + 2), ([] ++ [tags]) ++ [[]; tags; tags]).
Proof.
  apply (create_taglist_then_divide 3 [] [("env", "prod"); ("team", "ops")]).
  - compute_done.
  - simpl. lia.
Defined.

(** ** More on validation *)

(** X12. [valid_tags] stops at the first key that holds a colon: it returns
    [False] whatever follows that tag in the list, dicts without a key
    included, and leaves the heap as it was. *)
Theorem valid_tags_stops_at_first_colon (fuel : nat) (h : heap)
    (tag_list : loc) (pre suf : list tag) (t : tag) :
  h !! tag_list = Some (pre ++ t :: suf) ->
  Forall has_key pre ->
  Forall (fun u => colon_in_key u = false) pre ->
  colon_in_key t = true ->
  length (pre ++ t :: suf) < fuel ->
  valid_tags fuel tag_list h = (Return false, h).
Proof.
  intros Hl Hkeys Hclean Hcolon Hfuel. unfold valid_tags. unfold bind at 1.
  rewrite (for_in_snapshot (fun h' => h' = h) _ tag_list (pre ++ t :: suf));
    [|by intros ? ->|intros; frame|done|lia].
  rewrite drop_0, for_tuple_app, (valid_loop h pre Hkeys).
  assert (existsb colon_in_key pre = false) as ->.
  { apply not_true_iff_false. intros (u & Hu & Hc)%existsb_exists.
    rewrite Forall_forall in Hclean. apply list_elem_of_In, Hclean in Hu.
    congruence. }
  rewrite for_tuple_cons. unfold bind at 1. unfold getitem, bind, ret.
  unfold colon_in_key in Hcolon. destruct (t !! "Key") as [k|]; [|done].
  by rewrite Hcolon.
Qed.

Lemma valid_tags_stops_at_first_colon_witness :
  valid_tags 5 0 [[tag_a1] ++ tag_colon :: [dict_without_key]]
  = (Return false, [[tag_a1] ++ tag_colon :: [dict_without_key]]).
Proof.
  apply (valid_tags_stops_at_first_colon 5
           [[tag_a1] ++ tag_colon :: [dict_without_key]] 0
           [tag_a1] [dict_without_key] tag_colon).
  - reflexivity.
  - repeat constructor; by eexists.
  - repeat constructor.
  - reflexivity.
  - simpl. lia.
Defined.

(** ** More on deleting tags *)

(** X13. [delete_tags] looks at the first resource id only: the ids after
    it, and what the provider would answer for them, have no part in the
    result, the log or the exception. *)
Theorem delete_tags_only_first_resource
    (client client' : list string -> list tag -> api_reply) (rid : string)
    (others others' : list string) (tags : list tag) (w : world) :
  client [rid] tags = client' [rid] tags ->
  delete_tags client (rid :: others) tags w
  = delete_tags client' (rid :: others') tags w.
Proof. intros Hsame. by rewrite !delete_tags_first_resource, Hsame. Qed.

Lemma delete_tags_only_first_resource_witness :
  delete_tags (fun _ _ => HTTPStatus 200) ["vol-1"; "vol-2"] [tag_a1] empty_world
  = delete_tags
      (fun ids _ => if decide (ids = ["vol-1"]) then HTTPStatus 200
                    else ApiRaises (ClientError "InvalidVolume.NotFound" "gone"))
      ["vol-1"] [tag_a1] empty_world.
Proof.
  apply (delete_tags_only_first_resource (fun _ _ => HTTPStatus 200)
           (fun ids _ => if decide (ids = ["vol-1"]) then HTTPStatus 200
                         else ApiRaises (ClientError "InvalidVolume.NotFound" "gone"))
           "vol-1" ["vol-2"] [] [tag_a1] empty_world).
  reflexivity.
Defined.

(** X14. Given at least one resource id, [delete_tags] returns [True]
    exactly when the provider answers the first request with status 200;
    and whenever it returns a value it has written one record to the log
    and nothing to standard output. *)
Theorem delete_tags_true_iff_status_200
    (client : list string -> list tag -> api_reply) (rid : string)
    (others : list string) (tags : list tag) (w : world) :
  ((delete_tags client (rid :: others) tags w).1 = Return (VBool true) <->
   client [rid] tags = HTTPStatus 200) /\
  (forall v, (delete_tags client (rid :: others) tags w).1 = Return v ->
     exists record,
       (delete_tags client (rid :: others) tags w).2
       = World (stdout w) (records w ++ [record])).
Proof.
  rewrite delete_tags_first_resource.
  destruct (client [rid] tags) as [code|e].
  - destruct (Z.eqb_spec code 200) as [->|Hne]; simpl.
    + split; [done|]. intros v _. by eexists.
    + split; [split; [done|by intros [= ?]]|]. intros v _. by eexists.
  - destruct e; simpl; split; try (split; done); try (by intros v ?).
    intros v _. by eexists.
Qed.

(** X15. Of the exceptions of the provider's call, [delete_tags] catches
    [ClientError] only: it logs its code and message as critical and
    returns [False]; any other exception reaches the caller and nothing is
    logged. *)
Theorem delete_tags_catches_ClientError_only
    (client : list string -> list tag -> api_reply) (rid : string)
    (others : list string) (tags : list tag) (w : world) (e : exn) :
  client [rid] tags = ApiRaises e ->
  delete_tags client (rid :: others) tags w =
  match e with
  | ClientError code message =>
      (Return (VBool false),
       World (stdout w)
         (records w ++
          [(CRITICAL,
            VStr ("delete_tags: Problem apply tags to ec2 instances (Code: "
                  +:+ code +:+ " Message: " +:+ message +:+ ")"))]))
  | _ => (Raise e, w)
  end.
Proof.
  intros Hreply. rewrite delete_tags_first_resource, Hreply. by destruct e.
Qed.

Lemma delete_tags_catches_ClientError_only_witness :
  delete_tags (fun _ _ => ApiRaises (BotoCoreError "Could not connect"))
    ["vol-1"; "vol-2"] [tag_a1] empty_world
  = (Raise (BotoCoreError "Could not connect"), empty_world).
Proof.
  apply (delete_tags_catches_ClientError_only
           (fun _ _ => ApiRaises (BotoCoreError "Could not connect"))
           "vol-1" ["vol-2"] [tag_a1] empty_world
           (BotoCoreError "Could not connect")).
  reflexivity.
Defined.

(** ** Printing tags to the log *)

Lemma first_non_tag (tags : list tag) :
  ~ Forall is_tag tags ->
  exists pre bad suf,
    tags = pre ++ bad :: suf /\ Forall is_tag pre /\
    (bad !! "Key" = None \/ bad !! "Value" = None).
Proof.
  induction tags as [|t tags IH]; intros Hnot; [by destruct Hnot|].
  destruct (t !! "Key") as [k|] eqn:Hk; [|by exists [], t, tags; auto].
  destruct (t !! "Value") as [v|] eqn:Hv; [|by exists [], t, tags; auto].
  destruct IH as (pre & bad & suf & -> & Hpre & Hbad).
  { intros Hall. apply Hnot. constructor; [|done]. split; by eexists. }
  exists (t :: pre), bad, suf. split; [done|]. split; [|done].
  constructor; [|done]. split; by eexists.
Qed.

Section PrintTags.

(** The body of the inner loop of [print_tags]. *)
Let line (t : tag) (ct : Z) : M world (flow Z Empty_set) :=
  key <- getitem t "Key";;
  value <- getitem t "Value";;
  info (VStr ("tag" +:+ py_str (VInt ct) +:+ ": " +:+ key
              +:+ " : " +:+ value));;
  ret (Next (ct + 1)%Z).

Lemma print_lines (tags : list tag) (ct : Z) (w : world) :
  Forall is_tag tags ->
  exists (ct' : Z) (lines : list (level * pyval)),
    for_tuple tags line ct w =
      (Return (Next ct'), World (stdout w) (records w ++ lines)) /\
    length lines = length tags /\
    Forall (fun r => r.1 = INFO) lines.
Proof.
  revert ct w. induction tags as [|t tags IH]; intros ct w Htags.
  { exists ct, []. simpl. rewrite app_nil_r. by destruct w. }
  apply Forall_cons in Htags as [[[k Hk] [v Hv]] Htags].
  rewrite for_tuple_cons. unfold bind at 1. unfold line at 1, getitem, bind, ret.
  rewrite Hk, Hv. simpl.
  edestruct (IH (ct + 1)%Z) as (ct' & lines & -> & Hlen & Hinfo); [done|].
  do 2 eexists. simpl. rewrite <- app_assoc. split; [done|]. split.
  - simpl. by rewrite Hlen.
  - by constructor.
Qed.

Lemma print_lines_stop (pre suf : list tag) (bad : tag) (ct : Z) (w : world) :
  Forall is_tag pre ->
  bad !! "Key" = None \/ bad !! "Value" = None ->
  exists (k : string) (lines : list (level * pyval)),
    for_tuple (pre ++ bad :: suf) line ct w =
      (Raise (KeyError k), World (stdout w) (records w ++ lines)).
Proof.
  intros Hpre Hbad. rewrite for_tuple_app.
  destruct (print_lines pre ct w Hpre) as (ct' & lines & -> & _ & _).
  rewrite for_tuple_cons. unfold bind at 1. unfold line at 1, getitem, bind.
  destruct (bad !! "Key") as [k|]; [|by do 2 eexists].
  destruct Hbad as [?|Hv]; [done|]. rewrite Hv. by do 2 eexists.
Qed.

Lemma print_resources (resources : list pyval) (tags : list tag) (w : world) :
  Forall is_tag tags ->
  exists recs : list (level * pyval),
    for_tuple resources (fun resource (_ : unit) =>
      info (VStr ("Tags successfully applied to resource: "
                  +:+ py_str resource));;
      _ <- no_return (for_tuple tags line 0%Z);;
      ret (@Next unit Empty_set tt)) tt w =
      (Return (Next tt), World (stdout w) (records w ++ recs)) /\
    length recs = length resources * S (length tags) /\
    Forall (fun r => r.1 = INFO) recs.
Proof.
  intros Htags. revert w. induction resources as [|r rs IH]; intros w.
  { exists []. simpl. rewrite app_nil_r. by destruct w. }
  rewrite for_tuple_cons. unfold bind at 1. unfold bind at 1.
  unfold info at 1, emit. unfold bind at 1, no_return. unfold bind at 1.
  edestruct (print_lines tags 0%Z) as (ct' & lines & -> & Hlen & Hinfo);
    [done|].
  unfold ret at 1 2. simpl.
  edestruct IH as (recs & -> & Hlen' & Hinfo').
  eexists. simpl. rewrite <- !app_assoc. split; [done|]. split.
  - simpl. rewrite length_app, Hlen, Hlen'. lia.
  - constructor; [done|]. by apply Forall_app.
Qed.

Lemma print_resources_stop (r : pyval) (rs : list pyval)
    (pre suf : list tag) (bad : tag) (w : world) :
  Forall is_tag pre ->
  bad !! "Key" = None \/ bad !! "Value" = None ->
  exists (k : string) (recs : list (level * pyval)),
    for_tuple (r :: rs) (fun resource (_ : unit) =>
      info (VStr ("Tags successfully applied to resource: "
                  +:+ py_str resource));;
      _ <- no_return (for_tuple (pre ++ bad :: suf) line 0%Z);;
      ret (@Next unit Empty_set tt)) tt w =
      (Raise (KeyError k), World (stdout w) (records w ++ recs)).
Proof.
  intros Hpre Hbad. rewrite for_tuple_cons. unfold bind at 1.
  unfold bind at 1. unfold info at 1, emit. unfold bind at 1, no_return.
  unfold bind at 1.
  edestruct (print_lines_stop pre suf bad 0%Z) as (k & lines & ->); [done..|].
  exists k. eexists. simpl. by rewrite <- app_assoc.
Qed.

End PrintTags.

Lemma print_tags_ok (resource_list : list pyval)
    (tag_list : list tag) (mode : pyval) (w : world) :
  Forall is_tag tag_list ->
  exists recs : list (level * pyval),
    print_tags resource_list tag_list mode w =
      (Return 0%Z,
       World (stdout w)
         (records w ++ recs ++
          (if py_eq mode (VInt 0)
           then [(DEBUG, VStr "DBUGMODE = True, No tags applied")] else []))) /\
    length recs = length resource_list * S (length tag_list) /\
    Forall (fun r => r.1 = INFO) recs.
Proof.
  intros Htags. unfold print_tags. cbv zeta. unfold try_except.
  unfold bind at 1. unfold no_return at 1. unfold bind at 1.
  pose proof (print_resources resource_list tag_list w Htags) as Hloop.
  cbv zeta in Hloop. destruct Hloop as (recs & -> & Hlen & Hinfo).
  exists recs. split; [|done]. unfold ret at 1. unfold bind at 1.
  destruct (py_eq mode (VInt 0)); simpl.
  - by rewrite <- app_assoc.
  - by rewrite app_nil_r.
Qed.

(** X16. When every element of the tag list has a key and a value,
    [print_tags] returns 0 and prints nothing; it logs, at level info, one
    record for each resource and one for each tag of each resource, and
    then one debug record if the mode equals 0. *)
Theorem print_tags_logs_every_tag (resource_list : list pyval)
    (tag_list : list tag) (mode : pyval) (w : world) :
  Forall is_tag tag_list ->
  exists recs : list (level * pyval),
    print_tags resource_list tag_list mode w =
      (Return 0%Z,
       World (stdout w)
         (records w ++ recs ++
          (if py_eq mode (VInt 0)
           then [(DEBUG, VStr "DBUGMODE = True, No tags applied")] else []))) /\
    length recs = length resource_list * S (length tag_list) /\
    Forall (fun r => r.1 = INFO) recs.
Proof.
  intros Htags. by apply print_tags_ok.
Qed.

Lemma print_tags_logs_every_tag_witness :
  exists recs : list (level * pyval),
    print_tags [VStr "vol-1"; VStr "vol-2"] [tag_a1; tag_b2] (VInt 0) empty_world =
      (Return 0%Z,
       World (stdout empty_world)
         (records empty_world ++ recs ++
          (if py_eq (VInt 0) (VInt 0)
           then [(DEBUG, VStr "DBUGMODE = True, No tags applied")] else []))) /\
    length recs = length [VStr "vol-1"; VStr "vol-2"] * S (length [tag_a1; tag_b2]) /\
    Forall (fun r => r.1 = INFO) recs.
Proof.
  apply (print_tags_logs_every_tag [VStr "vol-1"; VStr "vol-2"]
           [tag_a1; tag_b2] (VInt 0) empty_world).
  repeat constructor; by eexists.
Defined.

(** X17. [print_tags] raises nothing and returns 0 or 1: it returns 1, its
    last record a critical one, exactly when there is a resource to report
    on and some element of the tag list lacks a key or a value. *)
Theorem print_tags_return_code (resource_list : list pyval)
    (tag_list : list tag) (mode : pyval) (w : world) :
  exists (code : Z) (w' : world),
    print_tags resource_list tag_list mode w = (Return code, w') /\
    stdout w' = stdout w /\
    (code = 1%Z /\ resource_list <> [] /\ ~ Forall is_tag tag_list /\
       (exists recs msg, records w' = records w ++ recs ++ [(CRITICAL, msg)])
     \/
     code = 0%Z /\ (resource_list = [] \/ Forall is_tag tag_list)).
Proof.
  destruct (decide (Forall is_tag tag_list)) as [Htags|Hnot].
  { destruct (print_tags_ok resource_list tag_list mode w Htags)
      as (recs & -> & _). do 2 eexists. split; [done|]. split; [done|].
    right. auto. }
  destruct resource_list as [|r rs].
  { unfold print_tags, try_except, bind, no_return. simpl.
    destruct (py_eq mode (VInt 0)); do 2 eexists;
      (split; [done|]); (split; [done|]); right; auto. }
  destruct (first_non_tag tag_list Hnot) as (pre & bad & suf & -> & Hpre & Hbad).
  unfold print_tags. cbv zeta. unfold try_except.
  unfold bind at 1. unfold no_return at 1. unfold bind at 1.
  pose proof (print_resources_stop r rs pre suf bad w Hpre Hbad) as Hstop.
  cbv zeta in Hstop. destruct Hstop as (k & recs & ->).
  cbv beta iota delta [is_Exception bind critical emit ret].
  do 2 eexists. split; [reflexivity|]. split; [reflexivity|]. left.
  split; [reflexivity|]. split; [discriminate|]. split; [exact Hnot|].
  exists recs. eexists. cbn [records]. by rewrite (assoc_L (++)).
Qed.

(** ** Printing tags as JSON *)

Section JsonTags.

Variables (json_dumps : list tag -> outcome string) (tags : list tag)
  (mode : pyval).

(** The body of the loop of [json_tags]. *)
Let report (resource : pyval) (_ : unit) : M world (flow unit Empty_set) :=
  (if py_eq mode (VInt 0) then
     debug (VStr ("DBUGMODE enabled - Print tags found on resource "
                  +:+ py_str resource +:+ ":"))
   else
     info (VStr ("Tags found resource " +:+ py_str resource +:+ ":")));;
  text <- (fun w => (json_dumps tags, w));;
  print text;;
  ret (Next tt).

Lemma json_report (r : pyval) (w : world) :
  report r tt w =
  match json_dumps tags with
  | Return text =>
      (Return (Next tt),
       World (stdout w ++ [text]) (records w ++ [json_header mode r]))
  | Raise e => (Raise e, World (stdout w) (records w ++ [json_header mode r]))
  | Stuck why =>
      (Stuck why, World (stdout w) (records w ++ [json_header mode r]))
  end.
Proof.
  unfold report, json_header, bind, debug, info, emit, print, ret.
  by destruct (py_eq mode (VInt 0)), (json_dumps tags).
Qed.

Lemma json_loop (resources : list pyval) (text : string) (w : world) :
  json_dumps tags = Return text ->
  for_tuple resources report tt w =
  (Return (Next tt),
   World (stdout w ++ replicate (length resources) text)
     (records w ++ map (json_header mode) resources)).
Proof.
  intros Hdump. revert w. induction resources as [|r rs IH]; intros w.
  { simpl. rewrite !app_nil_r. by destruct w. }
  rewrite for_tuple_cons. unfold bind at 1. rewrite json_report, Hdump, IH.
  cbn [stdout records length replicate map].
  by rewrite <- !(assoc_L (++)).
Qed.

End JsonTags.

(** X18. [json_tags] raises nothing. When the dump of the tag list
    succeeds it returns [True], having printed the dump once for each
    resource and logged one record for each; when the dump fails it prints
    nothing and returns [False] after a critical record — unless there is
    no resource, in which case the dump is not attempted. *)
Theorem json_tags_outcome (json_dumps : list tag -> outcome string)
    (resource_list : list pyval) (tag_list : list tag) (mode : pyval)
    (w : world) :
  (forall text, json_dumps tag_list = Return text ->
     json_tags json_dumps resource_list tag_list mode w =
     (Return true,
      World (stdout w ++ replicate (length resource_list) text)
        (records w ++ map (json_header mode) resource_list))) /\
  (forall e r rs, json_dumps tag_list = Raise e -> resource_list = r :: rs ->
     json_tags json_dumps resource_list tag_list mode w =
     (Return false,
      World (stdout w)
        (records w ++
         [json_header mode r;
          (CRITICAL,
           VStr ("json_tags: problem printing tag keys or values to cw logs: "
                 +:+ exn_str e))]))) /\
  (resource_list = [] ->
   json_tags json_dumps resource_list tag_list mode w = (Return true, w)).
Proof.
  split; [|split].
  - intros text Hdump. unfold json_tags. cbv zeta. unfold try_except.
    unfold bind at 1. unfold no_return at 1. unfold bind at 1.
    pose proof (json_loop json_dumps tag_list mode resource_list text w Hdump)
      as Hloop.
    cbv zeta in Hloop. by rewrite Hloop.
  - intros e r rs Hdump ->. unfold json_tags. cbv zeta. unfold try_except.
    unfold bind at 1. unfold no_return at 1. unfold bind at 1.
    rewrite for_tuple_cons. unfold bind at 1.
    pose proof (json_report json_dumps tag_list mode r w) as Hstep.
    cbv zeta in Hstep. rewrite Hstep, Hdump.
    cbv beta iota delta [is_Exception bind critical emit ret].
    cbn [stdout records]. by rewrite <- (assoc_L (++)).
  - by intros ->.
Qed.

(** * Further properties of the console helper *)

Lemma upper_char_idemp (c : ascii) : upper_char (upper_char c) = upper_char c.
Proof. by destruct c as [[] [] [] [] [] [] [] []]. Qed.

Lemma str_upper_idemp (s : string) : str_upper (str_upper s) = str_upper s.
Proof.
  induction s as [|c s IH]; [done|]. cbn [str_upper].
  by rewrite upper_char_idemp, IH.
Qed.

Lemma upper_char_ascii (c : ascii) :
  (nat_of_ascii c <? 128)%nat = true ->
  (nat_of_ascii (upper_char c) <? 128)%nat = true.
Proof. by destruct c as [[] [] [] [] [] [] [] []]. Qed.

Lemma str_upper_ascii (s : string) :
  ascii_text s = true -> ascii_text (str_upper s) = true.
Proof.
  unfold ascii_text. induction s as [|c s IH]; [done|].
  cbn [str_upper list_ascii_of_string forallb].
  intros [Hc Hs]%andb_prop. by rewrite upper_char_ascii, IH.
Qed.

(** Upper-casing ASCII text twice is upper-casing it once, with any case
    tables. *)
Lemma upper_idemp (U : casing) (s : string) :
  ascii_text s = true -> upper U (upper U s) = upper U s.
Proof.
  intros Hs. rewrite (upper_ascii U s) by done.
  rewrite upper_ascii by by apply str_upper_ascii.
  apply str_upper_idemp.
Qed.

Section ConsoleMore.

Variables (C : colors) (U : casing) (to_str : pyval -> string + exn).

(** X19. An ASCII prefix counts in upper case only: [stdout_message] does
    the same — output, log record and result — for the prefix and for
    [prefix.upper()]. *)
Theorem stdout_message_prefix_case (message : pyval) (p : string)
    (quiet multiline : bool) (indent severity : pyval) (logging : bool)
    (w : world) :
  ascii_text p = true ->
  stdout_message C U to_str message (VStr p) quiet multiline indent severity
    logging w
  = stdout_message C U to_str message (VStr (upper U p)) quiet multiline
      indent severity logging w.
Proof.
  intros Hp. unfold stdout_message. unfold bind at 1 3. unfold lift at 1 5.
  cbn [py_upper]. by rewrite upper_idemp.
Qed.

(** X20. The orange of the color table is never printed: whatever the
    arguments, [stdout_message] does the same with any other escape
    sequence in its place.  The branch that would use it asks for a
    severity among the warning words, and a call with a severity has
    already ended in the usage error. *)
Theorem stdout_message_never_orange (orange : string)
    (message prefix : pyval) (quiet multiline : bool)
    (indent severity : pyval) (logging : bool) (w : world) :
  stdout_message C U to_str message prefix quiet multiline indent severity
    logging w
  = stdout_message (with_orange C orange) U to_str message prefix quiet
      multiline indent severity logging w.
Proof.
  unfold stdout_message, bind, lift.
  destruct (py_upper U prefix) as [pu|e|why]; [|done..].
  destruct (py_int indent) as [z|e|why]; [|done..].
  destruct quiet; [done|].
  destruct (py_upper U severity) as [su|e|why]; [|done..].
  destruct su as [|c su]; [|done].
  reflexivity.
Qed.

(** X21. One call of [stdout_message] prints at most one line and hands at
    most one record to the logger, and a record only together with a line:
    there is a record only if [logging] was asked for and the call returned
    [True]. *)
Theorem stdout_message_one_line_one_record (message prefix : pyval)
    (quiet multiline : bool) (indent severity : pyval) (logging : bool)
    (w : world) :
  exists (out : list string) (recs : list (level * pyval)),
    stdout (stdout_message C U to_str message prefix quiet multiline indent
              severity logging w).2 = stdout w ++ out /\
    records (stdout_message C U to_str message prefix quiet multiline indent
               severity logging w).2 = records w ++ recs /\
    length recs <= length out <= 1 /\
    (recs <> [] ->
     logging = true /\
     (stdout_message C U to_str message prefix quiet multiline indent
        severity logging w).1 = Return true).
Proof.
  assert (forall r : outcome bool,
    exists (out : list string) (recs : list (level * pyval)),
      stdout (r, w).2 = stdout w ++ out /\
      records (r, w).2 = records w ++ recs /\
      length recs <= length out <= 1 /\
      (recs <> [] -> logging = true /\ (r, w).1 = Return true)) as Hsame.
  { intros r. exists [], []. simpl. rewrite !app_nil_r.
    split; [done|]. split; [done|]. split; [lia|done]. }
  assert (forall (b : bool) (line : string),
    exists (out : list string) (recs : list (level * pyval)),
      stdout (Return b, World (stdout w ++ [line]) (records w)).2
        = stdout w ++ out /\
      records (Return b, World (stdout w ++ [line]) (records w)).2
        = records w ++ recs /\
      length recs <= length out <= 1 /\
      (recs <> [] ->
       logging = true /\
       (Return b, World (stdout w ++ [line]) (records w)).1 = Return true))
    as Hline.
  { intros b line. exists [line], []. cbn [fst snd stdout records].
    rewrite app_nil_r. split; [done|]. split; [done|].
    split; [simpl; lia|done]. }
  destruct (py_upper U prefix) as [pu|e|why] eqn:Hp;
    [|unfold stdout_message, bind, lift; rewrite Hp; apply Hsame..].
  destruct prefix as [| | |p|]; try done. clear Hp pu.
  destruct (py_int indent) as [z|e|why] eqn:Hi;
    [|unfold stdout_message, bind, lift; simpl; rewrite Hi; apply Hsame..].
  destruct quiet.
  { rewrite (stdout_message_quiet C U to_str message p multiline indent z)
      by done.
    apply Hsame. }
  destruct (py_upper U severity) as [su|e|why] eqn:Hs;
    [|unfold stdout_message, bind, lift; simpl; rewrite Hi, Hs; apply Hsame..].
  destruct severity as [| | |s|]; try done. clear Hs su.
  destruct (decide (s = "")) as [->|Hs].
  - destruct (stdout_message_plain C U to_str message p multiline indent z w
                Hi) as [header Hrun].
    rewrite Hrun.
    destruct (expandtabs z header) as [expanded|e|why];
      [|apply Hline|apply Hsame].
    destruct (to_str message) as [text|e]; [|apply Hline].
    destruct logging; [|apply Hline].
    do 2 eexists. cbn [fst snd stdout records].
    split; [done|]. split; [done|]. split; [simpl; lia|done].
  - rewrite (stdout_message_severity C U to_str message p multiline indent z s)
      by done.
    apply Hline.
Qed.

End ConsoleMore.

Lemma stdout_message_prefix_case_witness :
  ascii_text "error" = true /\
  stdout_message ansi ascii_casing str_of_value (VStr "disk full")
    (VStr "error") false true (VInt 4) (VStr "") true empty_world
  = stdout_message ansi ascii_casing str_of_value (VStr "disk full")
      (VStr (upper ascii_casing "error")) false true (VInt 4) (VStr "") true
      empty_world.
Proof.
  split; [reflexivity|].
  apply (stdout_message_prefix_case ansi ascii_casing str_of_value
           (VStr "disk full") "error" false true (VInt 4) (VStr "") true
           empty_world).
  reflexivity.
Defined.

Lemma stdout_message_prefix_case_example :
  (stdout_message ansi ascii_casing str_of_value (VStr "disk full")
     (VStr "error") false true (VInt 4) (VStr "") true empty_world).2
  = World ["<Y> [ <R>ERROR<Y> ]<0>: disk full"] [(CRITICAL, VStr "disk full")].
Proof. reflexivity. Qed.

Lemma json_tags_outcome_witness :
  json_tags (fun _ => Return "[]") [VStr "vol-1"; VStr "vol-2"] [] (VInt 0)
    empty_world =
  (Return true,
   World (stdout empty_world ++ replicate 2 "[]")
     (records empty_world
      ++ map (json_header (VInt 0)) [VStr "vol-1"; VStr "vol-2"])) /\
  json_tags (fun _ => Raise (TypeError "not serializable")) [VStr "vol-1"] []
    (VStr "") empty_world =
  (Return false,
   World (stdout empty_world)
     (records empty_world ++
      [json_header (VStr "") (VStr "vol-1");
       (CRITICAL,
        VStr ("json_tags: problem printing tag keys or values to cw logs: "
              +:+ exn_str (TypeError "not serializable")))])).
Proof.
  split.
  - destruct (json_tags_outcome (fun _ => Return "[]")
                [VStr "vol-1"; VStr "vol-2"] [] (VInt 0) empty_world)
      as [Hdumped _].
    apply Hdumped. reflexivity.
  - destruct (json_tags_outcome (fun _ => Raise (TypeError "not serializable"))
                [VStr "vol-1"] [] (VStr "") empty_world)
      as [_ [Hfailed _]].
    apply (Hfailed (TypeError "not serializable") (VStr "vol-1") []);
      reflexivity.
Defined.

(** * Tags that share a key, divided *)

Lemma elem_of_odict_set_same (k v : string) (d : list (string * string)) :
  (k, v) ∈ odict_set k v d.
Proof.
  induction d as [|[k' v'] d IH]; cbn [odict_set]; [apply list_elem_of_here|].
  destruct (String.eqb_spec k k') as [->|_].
  - apply list_elem_of_here.
  - by apply list_elem_of_further.
Qed.

Lemma elem_of_odict_set_other (k v k' v' : string) (d : list (string * string)) :
  k' <> k -> (k, v) ∈ d -> (k, v) ∈ odict_set k' v' d.
Proof.
  intros Hne. induction d as [|[k0 v0] d IH]; cbn [odict_set];
    [by intros ?%elem_of_nil|].
  intros [[= <- <-]|Hin]%elem_of_cons.
  - destruct (String.eqb_spec k' k) as [|_]; [done|]. apply list_elem_of_here.
  - destruct (String.eqb k' k0); by apply list_elem_of_further; auto.
Qed.

Lemma entries_last_value (ys zs : list tag) (t : tag) (k v : string) :
  t !! "Key" = Some k -> t !! "Value" = Some v ->
  Forall (fun u => u !! "Key" <> Some k) zs ->
  (k, v) ∈ entries (ys ++ t :: zs).
Proof.
  intros Hk Hv Hzs. unfold entries. rewrite fold_left_app. cbn [fold_left].
  rewrite Hk, Hv.
  generalize (fold_left (fun d t0 =>
     match t0 !! "Key", t0 !! "Value" with
     | Some k0, Some v0 => odict_set k0 v0 d
     | _, _ => d
     end) ys []). intros d.
  pose proof (elem_of_odict_set_same k v d) as Hin.
  revert Hin. generalize (odict_set k v d). clear d.
  induction zs as [|u zs IH]; intros d Hin; [done|].
  apply Forall_cons in Hzs as [Hu Hzs]. cbn [fold_left].
  apply IH; [done|].
  destruct (u !! "Key") as [k'|]; [|done].
  destruct (u !! "Value") as [v'|]; [|done].
  apply elem_of_odict_set_other; [congruence|done].
Qed.

Lemma NoDup_keys_value (d : list (string * string)) (k v v' : string) :
  NoDup d.*1 -> (k, v) ∈ d -> (k, v') ∈ d -> v = v'.
Proof.
  induction d as [|[k0 v0] d IH]; [by intros _ ?%elem_of_nil|].
  rewrite fmap_cons. intros [Hk0 Hnd]%NoDup_cons.
  intros [Heq|Hin]%elem_of_cons [Heq'|Hin']%elem_of_cons.
  - congruence.
  - exfalso. injection Heq as -> ->. apply Hk0, list_elem_of_fmap.
    by exists (k0, v').
  - exfalso. injection Heq' as -> ->. apply Hk0, list_elem_of_fmap.
    by exists (k0, v).
  - by apply IH.
Qed.

Lemma tag_of_keys (d : list (string * string)) :
  map (fun u : tag => u !! "Key") (map tag_of d) = Some <$> d.*1.
Proof.
  induction d as [|e d IH]; [done|]. cbn [map]. rewrite !fmap_cons.
  by rewrite tag_of_key, IH.
Qed.

(** X22. [divide_tags] merges the tags of the list that share a key: the
    lists it returns are built from one entry for each key, and the entry
    carries the value of the last tag with that key.  Divided by no key,
    the residual list holds, for the key of a tag that is the last with its
    key, that key with that tag's value, and no other tag with the key. *)
Theorem divide_tags_last_value_wins (fuel : nat) (h : heap) (tag_list : loc)
    (ys zs : list tag) (t : tag) (k v : string) :
  h !! tag_list = Some (ys ++ t :: zs) ->
  Forall is_tag (ys ++ t :: zs) ->
  length (ys ++ t :: zs) < fuel ->
  t !! "Key" = Some k ->
  t !! "Value" = Some v ->
  Forall (fun u => u !! "Key" <> Some k) zs ->
  exists residual : list tag,
    divide_tags fuel tag_list [] h =
      (Return (length h, length h + 2),
       h ++ [[]; ys ++ t :: zs; residual]) /\
    new_tag k v ∈ residual /\
    (forall u, u ∈ residual -> u !! "Key" = Some k -> u = new_tag k v) /\
    NoDup (map (fun u : tag => u !! "Key") residual).
Proof.
  intros Hl Htags Hfuel Hk Hv Hzs.
  exists (map tag_of (entries (ys ++ t :: zs))).
  split; [by rewrite (divide_tags_run fuel h tag_list (ys ++ t :: zs))|].
  pose proof (entries_last_value ys zs t k v Hk Hv Hzs) as Hlast.
  pose proof (entries_NoDup _ Htags) as Hnd.
  split; [|split].
  - apply list_elem_of_fmap. by exists (k, v).
  - intros u (e & -> & He)%list_elem_of_fmap Hkey.
    rewrite tag_of_key in Hkey. injection Hkey as Hkey.
    destruct e as [k' v']. simpl in Hkey. subst k'.
    by rewrite (NoDup_keys_value _ k v' v Hnd).
  - rewrite tag_of_keys. by apply (NoDup_fmap_2 Some).
Qed.

Lemma divide_tags_last_value_wins_witness :
  exists residual : list tag,
    divide_tags 5 0 [] [[tag_a1] ++ tag_a3 :: [tag_b2]] =
      (Return (1, 1 + 2),
       [[tag_a1] ++ tag_a3 :: [tag_b2]]
       ++ [[]; [tag_a1] ++ tag_a3 :: [tag_b2]; residual]) /\
    new_tag "a" "3" ∈ residual /\
    (forall u, u ∈ residual -> u !! "Key" = Some "a" -> u = new_tag "a" "3") /\
    NoDup (map (fun u : tag => u !! "Key") residual).
Proof.
  apply (divide_tags_last_value_wins 5 [[tag_a1] ++ tag_a3 :: [tag_b2]] 0
           [tag_a1] [tag_b2] tag_a3 "a" "3").
  - reflexivity.
  - repeat constructor; by eexists.
  - simpl. lia.
  - reflexivity.
  - reflexivity.
  - repeat constructor. vm_compute. discriminate.
Defined.
